(** * stack_callback: a shallow embedding of [src/stack_callback.js]

    The JavaScript object graph is modelled as an explicit store: every
    [stack_callback] instance and every function object lives in a table
    and is referred to by its index, so that aliasing (a queue shared
    between a caller and a barrier, a listener registered twice) and
    reference identity ([===]) are those of the source.  The methods are
    written in a state-and-output monad, one definition per function of
    the source.  Callbacks are run by a fuel-indexed interpreter, because
    a drain need not terminate: a callback may push itself back for
    ever.

    Two variables of the source are left out: [fn] and [push], which
    [dequeue] and [watch_stack] assign without declaring them.  They
    are globals shared by all queues and all nested calls; [fn] is read
    only right after it is assigned, and [push] only for the result of
    [stack.push], which no caller uses, so that sharing them changes
    nothing.  The functions of underscore.js ([_.indexOf], [_.once],
    [_.bind], [_.every], [_.each], [_.isFunction], [_.flatten],
    [_.compact], [_.defer]) are modelled by what their documentation
    says. *)

From Stdlib Require Import ZArith Lia.
From stdpp Require Import base decidable option list strings.

Local Open Scope Z_scope.

(** ** Values *)

(** What can sit on a stack or be passed as [this].  Primitive values
    are compared by value, objects by reference. *)
Inductive value :=
| VUndefined
| VNull
| VBool (b : bool)
| VNum (n : Z)
| VStr (s : string)
| VObject (o : nat)      (* a plain object or array *)
| VStack (q : nat)       (* an instance of stack_callback *)
| VFunction (f : nat).   (* a function object *)

#[global] Instance value_eq_dec : EqDecision value.
Proof. solve_decision. Defined.

(** JavaScript truthiness (NaN is not modelled). *)
Definition truthy (v : value) : bool :=
  match v with
  | VUndefined | VNull => false
  | VBool b => b
  | VNum n => negb (n =? 0)
  | VStr s => negb (String.eqb s EmptyString)
  | VObject _ | VStack _ | VFunction _ => true
  end.

(** ['function' == typeof v] and [_.isFunction v]. *)
Definition is_function (v : value) : bool :=
  match v with VFunction _ => true | _ => false end.

(** [v instanceof tabbii.internals.stack_callback]. *)
Definition is_stack_callback (v : value) : bool :=
  match v with VStack _ => true | _ => false end.

(** The [prepopulated_stack] constructor argument: an item or a nested
    array of items. *)
#[warnings="-register-all"]
Inductive nested :=
| Item (v : value)
| Group (l : list nested).

#[global] Instance nested_eq_dec : EqDecision nested.
Proof.
  refine (fix go (x y : nested) {struct x} : Decision (x = y) :=
            match x, y with
            | Item v, Item v' => cast_if (decide (v = v'))
            | Group l, Group l' => cast_if (@list_eq_dec _ go l l')
            | _, _ => right _
            end); abstract congruence.
Defined.

(** [_.flatten] (deep). *)
Fixpoint flatten (x : nested) : list value :=
  match x with
  | Item v => [v]
  | Group l => (fix go (l : list nested) : list value :=
                  match l with
                  | [] => []
                  | y :: l' => flatten y ++ go l'
                  end) l
  end.

(** [_.compact]: drops the falsy entries. *)
Definition compact (l : list value) : list value :=
  List.filter truthy l.

(** [_.chain([prepopulated_stack]).flatten().compact().flatten().value()];
    the second flatten acts on an already flat array. *)
Definition perfect_prepopulated_stack (prepopulated_stack : nested) : list value :=
  compact (flatten (Group [prepopulated_stack])).

(** ** The store *)

(** One instance of [stack_callback]: the public properties [bind],
    [refire], [requeue] (the last two by truthiness) and the variables
    closed over by its methods. *)
Record stack_callback := mk_stack_callback {
  bind : value;
  refire : bool;
  requeue : bool;
  triggered : bool;
  stack : list value;
  (* [stack.push] is the dequeueing version installed by [watch_stack];
     otherwise it is a plain [Array.prototype.push]. *)
  watching : bool;
  trigger_event_listener : option nat;
  stop_event_listener : option nat
}.

(** An entry of the [stacks] array of [push_all]. *)
Record entry := mk_entry {
  e_stack_callback : nat;
  e_triggered : bool
}.

(** The options object of the one-argument constructor form. *)
Record options := mk_options {
  o_bind : value;
  o_refire : bool;
  o_requeue : bool;
  o_prepopulated_stack : nested;
  o_trigger_callback : value;
  o_stop_callback : value
}.

(** What application code can do with the library: the two forms of
    the constructor, the methods of a queue, the assignment of its
    [bind] property, and [push_all]. *)
Inductive op :=
| New (o : options)
| NewBind (bind : value) (prepopulated_stack : nested)
| SetBind (q : nat) (v : value)            (* q.bind = v *)
| OpPush (q : nat) (arguments : list value)
| OpTrigger (q : nat)
| OpStop (q : nat)
| OpRemove (q : nat) (callback_to_remove : value)
| OpEmpty (q : nat)
| OpState (q : nat)
| OpAddTriggerEventListener (q : nat) (responder : value)
| OpAddStopEventListener (q : nat) (responder : value)
| OpPushAll (arguments : list value).

(** Function objects.  [Native] is an application callback that does
    not touch the library: it is observed through the event its
    invocation leaves.  [Calls] is an application callback that uses the
    library, on the queues it closes over: [function(){ q.push(g);
    r.stop() }].  The others are the closures the source itself
    builds. *)
Inductive fn :=
| Native
| Calls (body : list op)
| FireIfReady (stacks i : nat) (final_callback : nat)
| Untriggered (stacks i : nat)
| Once (func : value) (ran : bool).              (* _.once(func) *)

(** A task handed to [_.defer] by the constructor. *)
Record task := mk_task {
  t_scope : nat;
  t_trigger_callback : value;
  t_stop_callback : value
}.

Record world := mk_world {
  heap : list stack_callback;
  funs : list fn;
  barriers : list (list entry);
  deferred : list task
}.

Definition empty_world : world := mk_world [] [] [] [].

#[global] Instance stack_callback_eq_dec : EqDecision stack_callback.
Proof. solve_decision. Defined.
#[global] Instance entry_eq_dec : EqDecision entry.
Proof. solve_decision. Defined.
#[global] Instance options_eq_dec : EqDecision options.
Proof. solve_decision. Defined.
#[global] Instance op_eq_dec : EqDecision op.
Proof. solve_decision. Defined.
#[global] Instance fn_eq_dec : EqDecision fn.
Proof. solve_decision. Defined.
#[global] Instance task_eq_dec : EqDecision task.
Proof. solve_decision. Defined.
#[global] Instance world_eq_dec : EqDecision world.
Proof. solve_decision. Defined.

(** ** Observable events *)

Inductive message :=
| StackError (remaining : list value)
| RefireMustBeEnabled
| PushAllMissingCallback (arguments : list value).

Inductive event :=
| Invoked (f : nat) (this : value)   (* Native function [f] applied with [this] *)
| ConsoleLog (m : message).

#[global] Instance message_eq_dec : EqDecision message.
Proof. solve_decision. Defined.
#[global] Instance event_eq_dec : EqDecision event.
Proof. solve_decision. Defined.

(** ** The monad: state, output, failure *)

(** [None] is "out of fuel" (or a dangling reference, which a
    JavaScript program cannot produce). *)
Definition M (A : Type) : Type := world -> option (A * world * list event).

Definition ret {A} (a : A) : M A := fun w => Some (a, w, []).

Definition and_then {A B} (m : M A) (k : A -> M B) : M B :=
  fun w =>
    match m w with
    | None => None
    | Some (a, w1, e1) =>
        match k a w1 with
        | None => None
        | Some (b, w2, e2) => Some (b, w2, e1 ++ e2)
        end
    end.

Notation "x <<- m ; k" := (and_then m (fun x => k))
  (at level 20, m at level 100, k at level 200, only parsing).
Notation "m >>; k" := (and_then m (fun _ => k))
  (at level 20, k at level 200, only parsing).

Definition fail {A} : M A := fun _ => None.
Definition emit (e : event) : M unit := fun w => Some (tt, w, [e]).
Definition console_log (m : message) : M unit := emit (ConsoleLog m).
Definition get_world : M world := fun w => Some (w, w, []).
Definition put_world (w : world) : M unit := fun _ => Some (tt, w, []).
Definition lift_option {A} (o : option A) : M A :=
  match o with Some a => ret a | None => fail end.
Definition when (b : bool) (m : M unit) : M unit := if b then m else ret tt.

Definition set_heap (h : list stack_callback) (w : world) : world :=
  mk_world h (funs w) (barriers w) (deferred w).

(** Reading and updating one queue. *)
Definition get_queue (q : nat) : M stack_callback :=
  w <<- get_world; lift_option (heap w !! q).

Definition read {A} (q : nat) (field : stack_callback -> A) : M A :=
  s <<- get_queue q; ret (field s).

Definition modify (q : nat) (f : stack_callback -> stack_callback) : M unit :=
  s <<- get_queue q;
  w <<- get_world;
  put_world (set_heap (<[q := f s]> (heap w)) w).

Definition set_bind (v : value) (s : stack_callback) : stack_callback :=
  mk_stack_callback v (refire s) (requeue s) (triggered s) (stack s)
    (watching s) (trigger_event_listener s) (stop_event_listener s).
Definition set_triggered (b : bool) (s : stack_callback) : stack_callback :=
  mk_stack_callback (bind s) (refire s) (requeue s) b (stack s)
    (watching s) (trigger_event_listener s) (stop_event_listener s).
Definition set_stack (l : list value) (s : stack_callback) : stack_callback :=
  mk_stack_callback (bind s) (refire s) (requeue s) (triggered s) l
    (watching s) (trigger_event_listener s) (stop_event_listener s).
Definition set_watching (b : bool) (s : stack_callback) : stack_callback :=
  mk_stack_callback (bind s) (refire s) (requeue s) (triggered s) (stack s)
    b (trigger_event_listener s) (stop_event_listener s).
Definition set_trigger_event_listener (c : nat) (s : stack_callback) : stack_callback :=
  mk_stack_callback (bind s) (refire s) (requeue s) (triggered s) (stack s)
    (watching s) (Some c) (stop_event_listener s).
Definition set_stop_event_listener (c : nat) (s : stack_callback) : stack_callback :=
  mk_stack_callback (bind s) (refire s) (requeue s) (triggered s) (stack s)
    (watching s) (trigger_event_listener s) (Some c).

(** [Array.prototype.push.apply(stack, items)]. *)
Definition array_push (items : list value) (s : stack_callback) : stack_callback :=
  set_stack (stack s ++ items) s.

(** Allocation: a new object gets the next free index. *)
Definition alloc_queue (s : stack_callback) : M nat :=
  w <<- get_world;
  put_world (set_heap (heap w ++ [s]) w) >>;
  ret (length (heap w)).

Definition alloc_fun (f : fn) : M nat :=
  w <<- get_world;
  put_world (mk_world (heap w) (funs w ++ [f]) (barriers w) (deferred w)) >>;
  ret (length (funs w)).

Definition alloc_barrier (stacks : list entry) : M nat :=
  w <<- get_world;
  put_world (mk_world (heap w) (funs w) (barriers w ++ [stacks]) (deferred w)) >>;
  ret (length (barriers w)).

Definition defer (t : task) : M unit :=
  w <<- get_world;
  put_world (mk_world (heap w) (funs w) (barriers w) (deferred w ++ [t])).

Definition take_deferred : M (list task) :=
  w <<- get_world;
  put_world (mk_world (heap w) (funs w) (barriers w) []) >>;
  ret (deferred w).

Definition get_fun (f : nat) : M fn :=
  w <<- get_world; lift_option (funs w !! f).

Definition set_fun (f : nat) (body : fn) : M unit :=
  w <<- get_world;
  put_world (mk_world (heap w) (<[f := body]> (funs w)) (barriers w) (deferred w)).

Definition get_barrier (b : nat) : M (list entry) :=
  w <<- get_world; lift_option (barriers w !! b).

(** [stacks[i].triggered = v]. *)
Definition set_entry_triggered (b i : nat) (v : bool) : M unit :=
  stacks <<- get_barrier b;
  e <<- lift_option (stacks !! i);
  w <<- get_world;
  put_world (mk_world (heap w) (funs w)
               (<[b := <[i := mk_entry (e_stack_callback e) v]> stacks]> (barriers w))
               (deferred w)).

(** ** Array helpers *)

(** [_.indexOf(array, item)]: the first index holding a value [===] to
    [item], or [-1]. *)
Fixpoint indexOf (array : list value) (item : value) : Z :=
  match array with
  | [] => -1
  | x :: rest =>
      if decide (x = item) then 0
      else let i := indexOf rest item in
           if i <? 0 then -1 else i + 1
  end.

(** [array.splice(start, deleteCount)], the array left behind.  A
    negative [start] counts from the end of the array. *)
Definition splice (array : list value) (start : Z) (deleteCount : nat) : list value :=
  let len := Z.of_nat (length array) in
  let from := if start <? 0 then Z.max (len + start) 0 else Z.min start len in
  take (Z.to_nat from) array ++ drop (Z.to_nat from + deleteCount) array.

(** ** The methods *)

(** The three places where the source closes a cycle of calls. *)
Inductive call :=
| Trigger (q : nat)                   (* q.trigger() *)
| DequeueLoop (q : nat)               (* the while loop of dequeue *)
| Apply (f : value) (this : value).   (* f.apply(this) *)

Section Methods.

(** The interpreter with one unit of fuel less. *)
Variable rec : call -> M value.

(** The constructor.  Called with one argument that is an object, it
    takes it for the options; otherwise its arguments are [bind] and
    [prepopulated_stack] (both [undefined] in [new stack_callback]). *)
Definition new_with_options (o : options) : M nat :=
  scope <<- alloc_queue
    (mk_stack_callback (o_bind o) (o_refire o) (o_requeue o) false
       (perfect_prepopulated_stack (o_prepopulated_stack o)) false None None);
  defer (mk_task scope (o_trigger_callback o) (o_stop_callback o)) >>;
  ret scope.

Definition new_with_bind (bind : value) (prepopulated_stack : nested) : M nat :=
  alloc_queue
    (mk_stack_callback (if truthy bind then bind else VUndefined) false false false
       (perfect_prepopulated_stack prepopulated_stack) false None None).

Definition stop (q : nat) : M value :=
  t <<- read q triggered;
  if negb t then ret (VBool false) else
  modify q (set_triggered false) >>;
  modify q (set_watching false) >>;
  l <<- read q stop_event_listener;
  match l with
  | Some c => rec (Trigger c) >>; ret VUndefined
  | None => ret VUndefined
  end.

Definition watch_stack (q : nat) : M unit :=
  modify q (set_watching true).

Definition dequeue (q : nat) : M unit :=
  rq <<- read q requeue;
  st <<- read q stack;
  (* left undefined when requeue is off: pushing it back pushes nothing *)
  let stack_copy := if rq then st else [] in
  rec (DequeueLoop q) >>;
  rf <<- read q refire;
  (if rf then
     rest <<- read q stack;
     when (negb (length rest =? 0)%nat) (console_log (StackError rest)) >>;
     stop q >>;
     rq' <<- read q requeue;
     when rq' (modify q (array_push stack_copy))
   else ret tt) >>;
  rf' <<- read q refire;
  rq'' <<- read q requeue;
  when (negb rf' && rq'') (console_log RefireMustBeEnabled).

(** [stack.push.apply(stack, arguments)], whichever [push] the array
    currently has. *)
Definition stack_push (q : nat) (arguments : list value) : M unit :=
  w <<- read q watching;
  modify q (array_push arguments) >>;
  when w (dequeue q).

Definition push (q : nat) (arguments : list value) : M value :=
  stack_push q arguments >>;
  ret (VStack q).

Definition trigger (q : nat) : M value :=
  t <<- read q triggered;
  if t then ret (VBool false) else
  modify q (set_triggered true) >>;
  dequeue q >>;
  watch_stack q >>;
  l <<- read q trigger_event_listener;
  match l with
  | Some c => rec (Trigger c) >>; ret VUndefined
  | None => ret VUndefined
  end.

(** One test of [while(fn = stack.shift())] and, when it passes, the
    loop body and the rest of the loop. *)
Definition dequeue_loop (q : nat) : M value :=
  st <<- read q stack;
  match st with
  | [] => ret VUndefined
  | fn :: rest =>
      modify q (set_stack rest) >>;
      if truthy fn then
        (if is_function fn then
           this <<- read q bind;
           rec (Apply fn this) >>; ret tt
         else ret tt) >>;
        rec (DequeueLoop q)
      else ret VUndefined
  end.

Definition remove (q : nat) (callback_to_remove : value) : M value :=
  st <<- read q stack;
  modify q (set_stack (splice st (indexOf st callback_to_remove) 1)) >>;
  ret VUndefined.

Definition empty (q : nat) : M value :=
  st <<- read q stack;
  modify q (set_stack (splice st 0 (length st))) >>;
  ret VUndefined.

Definition state (q : nat) : M value :=
  t <<- read q triggered;
  ret (VStr (if t then "triggered" else "waiting")).

Definition addTriggerEventListener (q : nat) (responder : value) : M value :=
  if negb (is_function responder) then ret (VBool false) else
  l <<- read q trigger_event_listener;
  c <<- match l with
        | Some c => ret c
        | None =>
            b <<- read q bind;
            c <<- new_with_options
                    (mk_options b true true (Item VUndefined) VUndefined VUndefined);
            modify q (set_trigger_event_listener c) >>;
            ret c
        end;
  push c [responder] >>;
  ret VUndefined.

Definition addStopEventListener (q : nat) (responder : value) : M value :=
  if negb (is_function responder) then ret (VBool false) else
  l <<- read q stop_event_listener;
  c <<- match l with
        | Some c => ret c
        | None =>
            b <<- read q bind;
            c <<- new_with_options
                    (mk_options b true true (Item VUndefined) VUndefined VUndefined);
            modify q (set_stop_event_listener c) >>;
            ret c
        end;
  push c [responder] >>;
  ret VUndefined.

(** The function handed to [_.defer] by the constructor. *)
Definition run_task (t : task) : M unit :=
  addTriggerEventListener (t_scope t) (t_trigger_callback t) >>;
  addStopEventListener (t_scope t) (t_stop_callback t) >>;
  ret tt.

(** [_.every(stacks, function(stack){ return stack.triggered })]. *)
Definition every_triggered (stacks : list entry) : bool :=
  forallb e_triggered stacks.

(** The first pass of [push_all] over its arguments. *)
Fixpoint scan_arguments (arguments : list value)
    (callback : option value) (stacks : list entry) : option value * list entry :=
  match arguments with
  | [] => (callback, stacks)
  | argument :: rest =>
      let stacks' :=
        match argument with
        | VStack q => stacks ++ [mk_entry q false]
        | _ => stacks
        end in
      let callback' := if is_function argument then Some argument else callback in
      scan_arguments rest callback' stacks'
  end.

(** The body of the second [_.each] of [push_all], for [stacks[i]]. *)
Definition wire_stack (b : nat) (final_callback : nat) (i : nat) (e : entry) : M unit :=
  fire_if_ready <<- alloc_fun (FireIfReady b i final_callback);
  untriggered <<- alloc_fun (Untriggered b i);
  push (e_stack_callback e) [VFunction fire_if_ready] >>;
  addTriggerEventListener (e_stack_callback e) (VFunction fire_if_ready) >>;
  addStopEventListener (e_stack_callback e) (VFunction untriggered) >>;
  ret tt.

Fixpoint wire_stacks (b : nat) (final_callback : nat) (i : nat) (l : list entry) : M unit :=
  match l with
  | [] => ret tt
  | e :: l' => wire_stack b final_callback i e >>; wire_stacks b final_callback (S i) l'
  end.

Definition push_all (arguments : list value) : M value :=
  let '(callback, stacks) := scan_arguments arguments None [] in
  match callback with
  | None =>
      console_log (PushAllMissingCallback arguments) >>;
      ret (VBool false)
  | Some callback =>
      final_callback <<- alloc_fun (Once callback false);
      b <<- alloc_barrier stacks;
      wire_stacks b final_callback 0 stacks >>;
      ret VUndefined
  end.

(** One operation of application code. *)
Definition exec_op (o : op) : M value :=
  match o with
  | New opts => q <<- new_with_options opts; ret (VStack q)
  | NewBind b p => q <<- new_with_bind b p; ret (VStack q)
  | SetBind q v => modify q (set_bind v) >>; ret v
  | OpPush q args => push q args
  | OpTrigger q => trigger q
  | OpStop q => stop q
  | OpRemove q v => remove q v
  | OpEmpty q => empty q
  | OpState q => state q
  | OpAddTriggerEventListener q r => addTriggerEventListener q r
  | OpAddStopEventListener q r => addStopEventListener q r
  | OpPushAll args => push_all args
  end.

(** The statements of a [Calls] callback, one after the other. *)
Fixpoint run_body (body : list op) : M unit :=
  match body with
  | [] => ret tt
  | o :: body' => exec_op o >>; run_body body'
  end.

(** [f.apply(this)] for a function object [f]. *)
Definition apply (f : value) (this : value) : M value :=
  match f with
  | VFunction id =>
      body <<- get_fun id;
      match body with
      | Native => emit (Invoked id this) >>; ret VUndefined
      | Calls body => run_body body >>; ret VUndefined
      | FireIfReady b i final_callback =>
          (* bound with _.bind to stacks[i]: [this] is ignored *)
          set_entry_triggered b i true >>;
          stacks <<- get_barrier b;
          if every_triggered stacks
          then rec (Apply (VFunction final_callback) VUndefined) >>; ret VUndefined
          else ret VUndefined
      | Untriggered b i =>
          set_entry_triggered b i false >>; ret VUndefined
      | Once func ran =>
          if ran then ret VUndefined else
          set_fun id (Once func true) >>;
          rec (Apply func this)
      end
  | _ => fail
  end.

End Methods.

(** ** The interpreter *)

Fixpoint run (fuel : nat) (c : call) : M value :=
  match fuel with
  | O => fail
  | S n =>
      match c with
      | Trigger q => trigger (run n) q
      | DequeueLoop q => dequeue_loop (run n) q
      | Apply f this => apply (run n) f this
      end
  end.

(** The deferred tasks are taken off the list before they run; a task
    deferred meanwhile waits for the next tick. *)
Fixpoint run_tasks (rec : call -> M value) (l : list task) : M unit :=
  match l with
  | [] => ret tt
  | t :: l' => run_task rec t >>; run_tasks rec l'
  end.

Definition tick (rec : call -> M value) : M value :=
  tasks <<- take_deferred;
  run_tasks rec tasks >>;
  ret VUndefined.

(** What happens at top level: application code runs an operation or
    creates a function object, or the host runs the deferred tasks. *)
Inductive action :=
| Do (o : op)
| NewFunction (body : fn)
| Tick.

Definition exec (fuel : nat) (a : action) : M value :=
  match a with
  | Do o => exec_op (run fuel) o
  | NewFunction body => f <<- alloc_fun body; ret (VFunction f)
  | Tick => tick (run fuel)
  end.

(** A script: actions one after the other; the results are kept. *)
Fixpoint exec_all (fuel : nat) (l : list action) : M (list value) :=
  match l with
  | [] => ret []
  | a :: l' => v <<- exec fuel a; vs <<- exec_all fuel l'; ret (v :: vs)
  end.

(** ** Vocabulary of the statements *)

(** The entries [push_all] tracks: one per [stack_callback] argument. *)
Definition tracked (arguments : list value) : list entry :=
  omap (fun a => match a with VStack q => Some (mk_entry q false) | _ => None end)
       arguments.

(** The arguments with every function taken out. *)
Definition without_functions (arguments : list value) : list value :=
  List.filter (fun a => negb (is_function a)) arguments.


(** What a caller can observe of a queue. *)
Definition stack_of (w : world) (q : nat) : option (list value) :=
  stack <$> heap w !! q.

Definition triggered_of (w : world) (q : nat) : option bool :=
  triggered <$> heap w !! q.

Definition bind_of (w : world) (q : nat) : option value :=
  bind <$> heap w !! q.

(** How many times the application callback [f] ran in a trace. *)
Definition invocations (f : nat) (trace : list event) : nat :=
  length (List.filter (fun e => match e with
                                | Invoked g _ => Nat.eqb f g
                                | ConsoleLog _ => false
                                end) trace).

(** The options form of the constructor with nothing but the two flags. *)
Definition flags (refire requeue : bool) : options :=
  mk_options VUndefined refire requeue (Item VUndefined) VUndefined VUndefined.

(** [new tabbii.internals.stack_callback], without arguments. *)
Definition new_plain : action := Do (NewBind VUndefined (Item VUndefined)).

(** ** The example of the documentation of push_all *)

(** [a], [b], [c] are three new queues, [z] the final callback. *)
Inductive which := QA | QB | QC.

Definition index (x : which) : nat :=
  match x with QA => 0 | QB => 1 | QC => 2 end%nat.

Definition z : nat := 0%nat.

Definition barrier_example : list action :=
  [new_plain; new_plain; new_plain; NewFunction Native;
   Do (OpPushAll [VStack (index QA); VStack (index QB); VStack (index QC);
                  VFunction z])].

(** What goes on afterwards: the queues are triggered and stopped, and
    the host gets to run the deferred tasks. *)
Inductive activity :=
| DoTrigger (x : which)
| DoStop (x : which)
| DoTick.

Definition op_of (a : activity) : action :=
  match a with
  | DoTrigger x => Do (OpTrigger (index x))
  | DoStop x => Do (OpStop (index x))
  | DoTick => Tick
  end.

Definition all_activities : list activity :=
  [DoTrigger QA; DoTrigger QB; DoTrigger QC; DoStop QA; DoStop QB; DoStop QC; DoTick].

(** Fuel enough for any single call in the example. *)
Definition enough : nat := 20%nat.

(** The worlds one activity away from [w], and the worlds at most [n]
    activities away from those of [seen]. *)
Definition successors (w : world) : list world :=
  omap (fun a => match exec enough (op_of a) w with
                 | Some (_, w', _) => Some w'
                 | None => None
                 end) all_activities.

Fixpoint explore (n : nat) (seen : list world) : list world :=
  match n with
  | O => seen
  | S n' => explore n' (remove_dups (seen ++ flat_map successors seen))
  end.


(** ** requeue without refire *)

(** The same queue with [requeue] off. *)
Definition clear_requeue (s : stack_callback) : stack_callback :=
  mk_stack_callback (bind s) (refire s) false (triggered s) (stack s)
    (watching s) (trigger_event_listener s) (stop_event_listener s).

(** The same world with [requeue] off in queue [q0]. *)
Definition without_requeue (q0 : nat) (w : world) : world :=
  set_heap (alter clear_requeue q0 (heap w)) w.

(** A field other than [requeue]. *)
Definition insensitive {A} (field : stack_callback -> A) : Prop :=
  forall s, field (clear_requeue s) = field s.

(** An update that leaves [refire] and [requeue] alone. *)
Definition config_free (f : stack_callback -> stack_callback) : Prop :=
  forall s, refire (f s) = refire s /\ clear_requeue (f s) = f (clear_requeue s).

(** The trace without the "Refire must be enabled" warnings. *)
Definition is_warning (e : event) : bool :=
  match e with
  | ConsoleLog RefireMustBeEnabled => true
  | _ => false
  end.

Definition quiet (trace : list event) : list event :=
  List.filter (fun e => negb (is_warning e)) trace.

(** Two worlds that differ in the [requeue] flag of [q0], a queue
    without [refire]. *)
Definition sim (q0 : nat) (w1 w2 : world) : Prop :=
  w2 = without_requeue q0 w1 /\
  exists s, heap w1 !! q0 = Some s /\ refire s = false.

(** Two outcomes that differ in that way and in the warnings. *)
Definition related {A} (q0 : nat) (r1 r2 : option (A * world * list event)) : Prop :=
  match r1, r2 with
  | Some (a1, w1, t1), Some (a2, w2, t2) =>
      a1 = a2 /\ sim q0 w1 w2 /\ quiet t1 = quiet t2
  | None, None => True
  | _, _ => False
  end.

Definition SimM {A} (q0 : nat) (m1 m2 : M A) : Prop :=
  forall w1 w2, sim q0 w1 w2 -> related q0 (m1 w1) (m2 w2).

(** ** Running a script in an arbitrary world *)

(** An outcome with a trace put in front of its own. *)
Definition prefix {A} (t : list event) (r : option (A * world * list event)) :
    option (A * world * list event) :=
  match r with
  | Some (a, w, t') => Some (a, w, t ++ t')
  | None => None
  end.

(** The heap [H] with queue [q] replaced by [sq] and the queues [L]
    allocated after it; the world with that heap. *)
Definition NF (H : list stack_callback) (q : nat)
    (sq : stack_callback) (L : list stack_callback) : list stack_callback :=
  <[q := sq]> H ++ L.

Definition W (H : list stack_callback) (F : list fn) (B : list (list entry))
    (q : nat) (sq : stack_callback) (L : list stack_callback) (D : list task) : world :=
  mk_world (NF H q sq L) F B D.

(** The trace of the script of the bind snapshot, by the flags of the
    queue: [g] is an item, [f] and [k] trigger listeners, [h] and [m]
    stop listeners, [b] the bind at creation and [v] the later one. *)
Definition snapshot_trace (rf rq : bool) (b v : value) (f h k m g : nat) : list event :=
  [Invoked g v]
  ++ (if rf then [Invoked h b; Invoked m b]
      else if rq then [ConsoleLog RefireMustBeEnabled] else [])
  ++ [Invoked f b; Invoked k b]
  ++ (if rf then [] else [Invoked h b; Invoked m b]).

(** ** Well-behaved stacks *)

(** A truthy entry that, when it is a function, is an application
    callback. *)
Definition simple_item (F : list fn) (x : value) : Prop :=
  truthy x = true /\ forall f, x = VFunction f -> F !! f = Some Native.

(** The invocations a drain of such entries makes. *)
Definition invoked_by (this : value) (items : list value) : list event :=
  omap (fun x => match x with
                 | VFunction f => Some (Invoked f this)
                 | _ => None
                 end) items.

(** Queue [q] replaced by [s]. *)
Definition with_queue (q : nat) (s : stack_callback) (w : world) : world :=
  set_heap (<[q := s]> (heap w)) w.

(** * More of the code

    The rest of [src/stack_callback.js], and the callers of the queues
    in [src/facebook.js] and [src/user.js]. *)

(** ** Vocabulary *)

(** The leaves of a [prepopulated_stack] argument are well-behaved:
    each truthy one that is a function is an application callback. *)
Definition simple_leaves (F : list fn) (p : nested) : Prop :=
  Forall (fun x => truthy x = true -> forall f, x = VFunction f -> F !! f = Some Native)
         (flatten p).

(** ** What no operation changes *)

(** [s'] is a later state of the queue [s]: the flags are the same, and
    a listener queue that was there is still the same one. *)
Definition later_queue (s s' : stack_callback) : Prop :=
  refire s' = refire s
  /\ requeue s' = requeue s
  /\ (forall c, trigger_event_listener s = Some c -> trigger_event_listener s' = Some c)
  /\ (forall c, stop_event_listener s = Some c -> stop_event_listener s' = Some c).

(** [w'] is a later state of the world [w]: every queue of [w] is still
    there, under the same reference. *)
Definition later_world (w w' : world) : Prop :=
  forall q s, heap w !! q = Some s ->
    exists s', heap w' !! q = Some s' /\ later_queue s s'.

(** A computation that only leads to later worlds. *)
Definition Keeps {A} (m : M A) : Prop :=
  forall w a w' t, m w = Some (a, w', t) -> later_world w w'.

(** An update of a queue that leaves flags and listeners alone. *)
Definition stable (f : stack_callback -> stack_callback) : Prop :=
  forall s, refire (f s) = refire s
            /\ requeue (f s) = requeue s
            /\ trigger_event_listener (f s) = trigger_event_listener s
            /\ stop_event_listener (f s) = stop_event_listener s.

(** ** The barrier of the example, from its construction on *)

(** The wrapper [_.once(z)] of the example is the second function
    object created; [once_ran] reads its flag. *)
Definition once_ran (w : world) : bool :=
  match funs w !! 1%nat with
  | Some (Once _ ran) => ran
  | _ => false
  end.

(** [a], [b] and [c] are all triggered. *)
Definition all_triggered (w : world) : bool :=
  forallb (fun x => bool_decide (triggered_of w (index x) = Some true)) [QA; QB; QC].

Definition ran_count (w : world) : nat := if once_ran w then 1%nat else 0%nat.

(** Every activity from every world of [l] leads back into [l], invokes
    [z] as often as the flag of the wrapper says, and only into a world
    where the three queues are triggered; and in [l] the three queues
    are never all triggered without [z] having run. *)
Definition barrier_invariant (l : list world) : bool :=
  forallb (fun w =>
    implb (all_triggered w) (once_ran w)
    && forallb (fun a =>
         match exec enough (op_of a) w with
         | Some (_, w', trace) =>
             Nat.eqb (ran_count w + invocations z trace) (ran_count w')
             && implb (negb (Nat.eqb (invocations z trace) 0)) (all_triggered w')
             && bool_decide (w' ∈ l)
         | None => false
         end) all_activities) l.

(** The example with some of the queues triggered before [push_all] is
    called, and the triggers that are then still to come. *)
Definition triggers (ta tb tc : bool) : list action :=
  (if ta then [Do (OpTrigger (index QA))] else [])
  ++ (if tb then [Do (OpTrigger (index QB))] else [])
  ++ (if tc then [Do (OpTrigger (index QC))] else []).

Definition late_barrier (ta tb tc : bool) : list action :=
  [new_plain; new_plain; new_plain; NewFunction Native]
  ++ triggers ta tb tc
  ++ [Do (OpPushAll [VStack (index QA); VStack (index QB); VStack (index QC);
                     VFunction z])].


(** ** Queues as the modules create them *)

(** A queue of [new stack_callback], without listeners, holding
    well-behaved entries. *)
Definition plain_queue (F : list fn) (s : stack_callback) : Prop :=
  refire s = false
  /\ requeue s = false
  /\ trigger_event_listener s = None
  /\ stop_event_listener s = None
  /\ Forall (simple_item F) (stack s).

(** A waiting queue of [new stack_callback({refire:true, requeue:true})],
    without listeners, holding well-behaved entries. *)
Definition cycling_queue (F : list fn) (s : stack_callback) : Prop :=
  triggered s = false
  /\ refire s = true
  /\ requeue s = true
  /\ trigger_event_listener s = None
  /\ stop_event_listener s = None
  /\ Forall (simple_item F) (stack s).

(** ** [src/facebook.js] *)

Module facebook.

(** The module object: the three queues of [callbacks], and [status]. *)
Record t := mk {
  loaded : nat;
  connected : nat;
  unconnected : nat;
  status : string
}.

(** The evaluation of the object literal: three times
    [new tabbii.internals.stack_callback], and [status : 'unknown']. *)
Definition create : M t :=
  l <<- new_with_bind VUndefined (Item VUndefined);
  c <<- new_with_bind VUndefined (Item VUndefined);
  u <<- new_with_bind VUndefined (Item VUndefined);
  ret (mk l c u "unknown").

Section Methods.

Variable rec : call -> M value.

(** [init], after [internals.load()] (which inserts the script element
    of the SDK and touches no queue): each of the two queues gets a
    callback that stops the other one. *)
Definition init (fb : t) : M unit :=
  f <<- alloc_fun (Calls [OpStop (connected fb)]);
  push rec (unconnected fb) [VFunction f] >>;
  g <<- alloc_fun (Calls [OpStop (unconnected fb)]);
  push rec (connected fb) [VFunction g] >>;
  ret tt.

(** [internals.update_status(response)], by [response.status]. *)
Definition update_status (fb : t) (response_status : string) : M t :=
  let fb := mk (loaded fb) (connected fb) (unconnected fb) response_status in
  (if String.eqb response_status "connected"
   then trigger rec (connected fb)
   else trigger rec (unconnected fb)) >>;
  ret fb.

(** The SDK reports one status after the other. *)
Fixpoint updates (fb : t) (responses : list string) : M t :=
  match responses with
  | [] => ret fb
  | r :: responses' => fb' <<- update_status fb r; updates fb' responses'
  end.

End Methods.

(** The module from its evaluation on: [init], then the reports of the
    SDK. *)
Definition session (fuel : nat) (responses : list string) : M t :=
  fb <<- create;
  init (run fuel) fb >>;
  updates (run fuel) fb responses.

Definition is_connected (response_status : string) : bool :=
  String.eqb response_status "connected".

(** How often the reports go from connected to not connected or
    back. *)
Fixpoint changes (responses : list string) : nat :=
  match responses with
  | a :: (b :: _) as rest =>
      ((if Bool.eqb (is_connected a) (is_connected b) then 0 else 1)
       + changes rest)%nat
  | _ => 0%nat
  end.

(** The states of the two queues: before the first report, after
    reports of one kind, after the first change, after the second. *)
Inductive switch :=
| Fresh
| Single (c : bool)
| Switched (c : bool)
| Stuck.

Definition next (s : switch) (c : bool) : switch :=
  match s with
  | Fresh => Single c
  | Single c' => if Bool.eqb c' c then s else Switched c
  | Switched c' => if Bool.eqb c' c then s else Stuck
  | Stuck => Stuck
  end.

Definition report (c : bool) : string :=
  if c then "connected" else "not_authorized".

(** Reports that lead to a state. *)
Definition reports_to (s : switch) : list string :=
  match s with
  | Fresh => []
  | Single c => [report c]
  | Switched c => [report (negb c); report c]
  | Stuck => [report true; report false; report true]
  end.

(** The world in a state. *)
Definition world_in (s : switch) : world :=
  match session enough (reports_to s) empty_world with
  | Some (_, w, _) => w
  | None => empty_world
  end.

(** The state after reports, from a state. *)
Definition after (s : switch) (responses : list string) : switch :=
  fold_left next (map is_connected responses) s.

End facebook.

(** ** [src/user.js] *)

Module user.

(** *** Underscore on arrays *)

(** [_.contains(array, item)]: [_.indexOf(array, item) >= 0]. *)
Definition contains (array : list value) (item : value) : bool :=
  0 <=? indexOf array item.

(** [_.difference(array, others)]: the values of [array] that are not
    in [others], in the order of [array]. *)
Definition difference (array others : list value) : list value :=
  List.filter (fun v => negb (contains others v)) array.

(** [_.uniq(array)]: each value where it occurs first. *)
Fixpoint uniq_onto (result array : list value) : list value :=
  match array with
  | [] => result
  | v :: rest => uniq_onto (if contains result v then result else result ++ [v]) rest
  end.

Definition uniq (array : list value) : list value := uniq_onto [] array.

(** [_.union(a, b)]. *)
Definition union (a b : list value) : list value := uniq (a ++ b).

(** [_.intersection(array, other)]. *)
Definition intersection (array other : list value) : list value :=
  List.filter (contains other) (uniq array).

(** A flat array as an argument. *)
Definition items (l : list value) : nested := Group (map Item l).

(** Truthiness of an argument: an array is an object. *)
Definition truthy_argument (x : nested) : bool :=
  match x with
  | Item v => truthy v
  | Group _ => true
  end.

(** *** The state of the module *)

(** An entry of the [data] array in the answer to [me/permissions]. *)
Record grant := mk_grant {
  permission : string;
  status : string
}.

(** The objects the module is handed or creates: the events of jQuery,
    with their method [preventDefault], and the objects the callbacks
    of [permission_change] are bound to.  [VObject o] refers to entry
    [o]. *)
Inductive object :=
| Plain
| JQueryEvent (defaultPrevented : bool)
| PermissionChanges (granted revoked : list value).

(** What the module asks of the console and of the SDK. *)
Inductive request :=
| ConsoleWarn (m : string)
| FBLogin (scope : nested) (rerequest : bool).

Record t := mk {
  (* callbacks *)
  logged_in : nat;
  begin_login : nat;
  permissions_granted : nat;
  permission_change : nat;
  (* permissions.api.current *)
  current : list value;
  (* tabbii.defaults.facebook.user *)
  basic_permissions : list value;
  additional_permissions : list value;
  objects : list object;
  requests : list request
}.

Definition set_current (l : list value) (u : t) : t :=
  mk (logged_in u) (begin_login u) (permissions_granted u) (permission_change u)
     l (basic_permissions u) (additional_permissions u) (objects u) (requests u).

Definition set_additional_permissions (l : list value) (u : t) : t :=
  mk (logged_in u) (begin_login u) (permissions_granted u) (permission_change u)
     (current u) (basic_permissions u) l (objects u) (requests u).

Definition set_objects (l : list object) (u : t) : t :=
  mk (logged_in u) (begin_login u) (permissions_granted u) (permission_change u)
     (current u) (basic_permissions u) (additional_permissions u) l (requests u).

Definition ask (r : request) (u : t) : t :=
  mk (logged_in u) (begin_login u) (permissions_granted u) (permission_change u)
     (current u) (basic_permissions u) (additional_permissions u) (objects u)
     (requests u ++ [r]).

(** The evaluation of the module: the four queues of [callbacks], the
    last one with [{refire:true, requeue:true}], no permission granted,
    and the defaults. *)
Definition create : M t :=
  l <<- new_with_bind VUndefined (Item VUndefined);
  b <<- new_with_bind VUndefined (Item VUndefined);
  g <<- new_with_bind VUndefined (Item VUndefined);
  c <<- new_with_options
          (mk_options VUndefined true true (Item VUndefined) VUndefined VUndefined);
  ret (mk l b g c [] [] [] [] []).

(** The object [callbacks], by the names of its properties. *)
Definition callbacks (u : t) : list (string * nat) :=
  [("logged_in"%string, logged_in u);
   ("begin_login"%string, begin_login u);
   ("permissions_granted"%string, permissions_granted u);
   ("permission_change"%string, permission_change u)].

(** [object[name]]; [None] is [undefined]. *)
Definition property (object : list (string * nat)) (name : string) : option nat :=
  snd <$> List.find (fun p => String.eqb (fst p) name) object.

(** *** The permissions *)

Definition basic (u : t) : list value := basic_permissions u.

Definition additional (u : t) : list value := additional_permissions u.

Definition all (u : t) : list value := union (additional u) (basic u).

Definition missing (u : t) (required_permission : nested) : list value :=
  difference (flatten (Group [required_permission])) (current u).

Definition includes (u : t) (required_permission : nested) : bool :=
  (length (missing u required_permission) =? 0)%nat.

Definition not_listed (u : t) (required_permission : nested) : list value :=
  difference (flatten (Group [required_permission])) (all u).

Definition add (u : t) (permissions : nested) : t :=
  set_additional_permissions
    (additional_permissions u ++ flatten (Group [permissions])) u.

(** What [update] keeps of an entry of [data]:
    [if(n.status=='granted') return n.permission]. *)
Definition granted_permission (n : grant) : value :=
  if String.eqb (status n) "granted" then VStr (permission n) else VUndefined.

(** [!trigger_event || !trigger_event.preventDefault] is false. *)
Definition evented (u : t) (trigger_event : value) : bool :=
  truthy trigger_event
  && match trigger_event with
     | VObject o =>
         match objects u !! o with
         | Some (JQueryEvent _) => true
         | _ => false
         end
     | _ => false
     end.

(** [trigger_event.preventDefault()]. *)
Definition preventDefault (trigger_event : value) (u : t) : t :=
  match trigger_event with
  | VObject o => set_objects (<[o := JQueryEvent true]> (objects u)) u
  | _ => u
  end.

(** How a call ends: it returns, or it raises a [TypeError]. *)
Inductive completion :=
| Returned
| TypeError.

Section Methods.

Variable rec : call -> M value.

(** [update(raw, callback)], by [raw.data] ([None] when the answer has
    none).  [callback] is called without [this]. *)
Definition update (u : t) (data : option (list grant)) (callback : value) : M t :=
  let permissions_object := match data with Some d => d | None => [] end in
  let previous_permissions := current u in
  let u := set_current (map granted_permission permissions_object) u in
  let newly_granted := difference (current u) previous_permissions in
  let newly_revoked := difference previous_permissions (current u) in
  u <<- (if negb (length newly_granted =? 0)%nat || negb (length newly_revoked =? 0)%nat
         then
           if negb (length (intersection (union newly_granted newly_revoked) (all u))
                    =? 0)%nat
           then
             let permission_changes :=
               PermissionChanges (intersection newly_granted (all u))
                                 (intersection newly_revoked (all u)) in
             let o := length (objects u) in
             let u := set_objects (objects u ++ [permission_changes]) u in
             modify (permission_change u) (set_bind (VObject o)) >>;
             trigger rec (permission_change u) >>;
             ret u
           else ret u
         else ret u);
  (if includes u (items (all u))
   then trigger rec (permissions_granted u) >>; ret tt
   else empty (permissions_granted u) >>;
        stop rec (permissions_granted u) >>;
        ret tt) >>;
  (if is_function callback then apply rec callback VUndefined >>; ret tt else ret tt) >>;
  ret u.

(** [request_permissions(trigger_event, permissions_required,
    granted_callback)], up to the call of [FB.login]; the function it
    hands to [FB.login] runs when the dialog of the SDK answers. *)
Definition request_permissions (u : t) (trigger_event : value)
    (permissions_required : nested) (granted_callback : value) : M t :=
  if negb (evented u trigger_event)
  then ret (ask (ConsoleWarn "Login call not evented") u)
  else
    let u := preventDefault trigger_event u in
    let '(permissions_required, granted_callback) :=
      match permissions_required with
      | Item (VFunction f) => (Item VUndefined, VFunction f)
      | _ => (permissions_required, granted_callback)
      end in
    let new_permissions := not_listed u permissions_required in
    let u := add u (items new_permissions) in
    let permissions :=
      if truthy_argument permissions_required
      then permissions_required
      else items (all u) in
    if negb (includes u permissions)
    then ret (ask (FBLogin permissions true) u)
    else
      if is_function granted_callback
      then
        (if includes u permissions
         then apply rec granted_callback trigger_event >>; ret tt
         else ret tt) >>;
        ret u
      else ret u.

(** [login(trigger_event)], with the module object of
    [src/facebook.js] for [facebook.status]. *)
Definition login (fb : facebook.t) (u : t) (trigger_event : value)
    : M (completion * t) :=
  if negb (evented u trigger_event)
  then ret (Returned, ask (ConsoleWarn "Login call not evented") u)
  else
    let u := preventDefault trigger_event u in
    match property (callbacks u) "login_begin" with
    | None => ret (TypeError, u)
    | Some q =>
        trigger rec q >>;
        if (length (missing u (items (basic u))) <? 1)%nat
           && String.eqb (facebook.status fb) "connected"
        then trigger rec (logged_in u) >>; ret (Returned, u)
        else ret (Returned, ask (FBLogin (items (basic u)) false) u)
    end.

End Methods.

End user.
(** * Properties *)

(** ** Stepping through the monad *)

(** Closes a conjunction of closed equations by evaluation. *)
Ltac by_running :=
  repeat match goal with
         | |- _ /\ _ => split; [vm_compute; reflexivity|]
         end;
  vm_compute; reflexivity.

Lemma and_then_ret {A B} (a : A) (k : A -> M B) (w : world) :
  and_then (ret a) k w = k a w.
Proof.
  unfold and_then, ret. destruct (k a w) as [[[b w'] e]|]; reflexivity.
Qed.

Lemma and_then_some {A B} (m : M A) (k : A -> M B) w a w1 e1 :
  m w = Some (a, w1, e1) ->
  and_then m k w =
    match k a w1 with
    | Some (b, w2, e2) => Some (b, w2, e1 ++ e2)
    | None => None
    end.
Proof. intros H. unfold and_then. rewrite H. reflexivity. Qed.

Lemma read_some {A} q (field : stack_callback -> A) w s :
  heap w !! q = Some s -> read q field w = Some (field s, w, []).
Proof.
  intros H. unfold read, get_queue, and_then, get_world. rewrite H. reflexivity.
Qed.

Lemma read_none {A} q (field : stack_callback -> A) w :
  heap w !! q = None -> read q field w = None.
Proof.
  intros H. unfold read, get_queue, and_then, get_world. rewrite H. reflexivity.
Qed.

Lemma modify_some q f w s :
  heap w !! q = Some s ->
  modify q f w = Some (tt, set_heap (<[q := f s]> (heap w)) w, []).
Proof.
  intros H. unfold modify, get_queue, and_then, get_world. rewrite H. reflexivity.
Qed.

Lemma modify_none q f w :
  heap w !! q = None -> modify q f w = None.
Proof.
  intros H. unfold modify, get_queue, and_then, get_world. rewrite H. reflexivity.
Qed.

(** ** remove *)

Lemma indexOf_absent l x : x ∉ l -> indexOf l x = -1.
Proof.
  induction l as [|y l IH]; simpl; intros Hx; [reflexivity|].
  apply not_elem_of_cons in Hx as [Hne Hx].
  destruct (decide (y = x)); [congruence|].
  rewrite (IH Hx). reflexivity.
Qed.

Lemma indexOf_first l1 l2 x :
  x ∉ l1 -> indexOf (l1 ++ x :: l2) x = Z.of_nat (length l1).
Proof.
  induction l1 as [|y l1 IH]; simpl; intros Hx.
  - destruct (decide (x = x)); [reflexivity|congruence].
  - apply not_elem_of_cons in Hx as [Hne Hx].
    destruct (decide (y = x)); [congruence|].
    rewrite (IH Hx).
    destruct (Z.ltb_spec (Z.of_nat (length l1)) 0); lia.
Qed.

Lemma splice_at l1 l2 x :
  splice (l1 ++ x :: l2) (Z.of_nat (length l1)) 1 = l1 ++ l2.
Proof.
  unfold splice.
  destruct (Z.ltb_spec (Z.of_nat (length l1)) 0); [lia|].
  rewrite length_app. simpl length.
  replace (Z.to_nat (Z.min _ _)) with (length l1) by lia.
  rewrite take_app_length.
  replace (length l1 + 1)%nat with (length (l1 ++ [x])) by (rewrite length_app; reflexivity).
  rewrite (assoc_L (++) l1 [x] l2) at 1.
  rewrite drop_app_length. reflexivity.
Qed.

(** [splice(-1, 1)] takes the last element off. *)
Lemma splice_minus_one l : splice l (-1) 1 = removelast l.
Proof.
  unfold splice. change (-1 <? 0) with true. cbv iota.
  destruct l as [|y l _] using rev_ind; [reflexivity|].
  rewrite removelast_last, length_app. simpl length.
  replace (Z.to_nat (Z.max _ 0)) with (length l) by lia.
  rewrite take_app_length.
  rewrite drop_ge; [apply app_nil_r|].
  rewrite length_app. simpl. lia.
Qed.

(** When the callback is on the stack, its first occurrence goes. *)
Lemma remove_present q x w s l1 l2 :
  heap w !! q = Some s ->
  stack s = l1 ++ x :: l2 ->
  x ∉ l1 ->
  remove q x w = Some (VUndefined, set_heap (<[q := set_stack (l1 ++ l2) s]> (heap w)) w, []).
Proof.
  intros Hq Hs Hx. unfold remove.
  rewrite (and_then_some _ _ _ _ _ _ (read_some q stack w s Hq)).
  rewrite (and_then_some _ _ _ _ _ _ (modify_some q _ w s Hq)).
  rewrite Hs, indexOf_first, splice_at by assumption. reflexivity.
Qed.

(** When it is not, the last entry of the stack goes instead. *)
Lemma remove_absent q x w s :
  heap w !! q = Some s ->
  x ∉ stack s ->
  remove q x w = Some (VUndefined, set_heap (<[q := set_stack (removelast (stack s)) s]> (heap w)) w, []).
Proof.
  intros Hq Hx. unfold remove.
  rewrite (and_then_some _ _ _ _ _ _ (read_some q stack w s Hq)).
  rewrite (and_then_some _ _ _ _ _ _ (modify_some q _ w s Hq)).
  rewrite indexOf_absent, splice_minus_one by assumption. reflexivity.
Qed.

(** ** push_all: the scan of the arguments *)

Lemma scan_arguments_stacks arguments callback stacks :
  snd (scan_arguments arguments callback stacks) = stacks ++ tracked arguments.
Proof.
  revert callback stacks.
  induction arguments as [|a l IH]; intros callback stacks; simpl.
  - symmetry. apply app_nil_r.
  - rewrite IH. destruct a; simpl; try reflexivity.
    rewrite <- (assoc_L (++)). reflexivity.
Qed.

Lemma scan_arguments_no_function arguments callback stacks :
  Forall (fun a => is_function a = false) arguments ->
  fst (scan_arguments arguments callback stacks) = callback.
Proof.
  intros H. revert callback stacks.
  induction H as [|a l Ha _ IH]; intros callback stacks; simpl; [reflexivity|].
  rewrite IH, Ha. reflexivity.
Qed.

Lemma scan_arguments_app l1 l2 callback stacks :
  scan_arguments (l1 ++ l2) callback stacks =
  scan_arguments l2 (fst (scan_arguments l1 callback stacks))
                    (snd (scan_arguments l1 callback stacks)).
Proof.
  revert callback stacks.
  induction l1 as [|a l1 IH]; intros callback stacks; simpl; [reflexivity|].
  apply IH.
Qed.

Lemma scan_arguments_last l1 f l2 callback stacks :
  Forall (fun a => is_function a = false) l2 ->
  fst (scan_arguments (l1 ++ VFunction f :: l2) callback stacks) = Some (VFunction f).
Proof.
  intros H. rewrite scan_arguments_app. simpl.
  apply scan_arguments_no_function, H.
Qed.

Lemma tracked_app l1 l2 : tracked (l1 ++ l2) = tracked l1 ++ tracked l2.
Proof. apply omap_app. Qed.

Lemma tracked_without_functions l : tracked (without_functions l) = tracked l.
Proof.
  induction l as [|a l IH]; [reflexivity|].
  destruct a; simpl; rewrite ?IH; reflexivity.
Qed.

Lemma tracked_are_stacks arguments e :
  e ∈ tracked arguments ->
  exists q, VStack q ∈ arguments /\ e = mk_entry q false.
Proof.
  unfold tracked. rewrite list_elem_of_omap.
  intros (a & Ha & He). destruct a; try discriminate.
  injection He as <-. eauto.
Qed.

Lemma push_all_scan rec arguments callback w :
  fst (scan_arguments arguments None []) = Some callback ->
  push_all rec arguments w =
    (final_callback <<- alloc_fun (Once callback false);
     b <<- alloc_barrier (tracked arguments);
     wire_stacks rec b final_callback 0 (tracked arguments) >>;
     ret VUndefined) w.
Proof.
  intros H. unfold push_all.
  pose proof (scan_arguments_stacks arguments None []) as Hs.
  destruct (scan_arguments arguments None []) as [cb st].
  simpl in H, Hs. subst. reflexivity.
Qed.

(** ** push on a stack that is not watched *)

(** With the array's own [push] in place, [push] appends and does
    nothing else. *)
Lemma push_not_watching rec q arguments w s :
  heap w !! q = Some s ->
  watching s = false ->
  push rec q arguments w =
    Some (VStack q, set_heap (<[q := array_push arguments s]> (heap w)) w, []).
Proof.
  intros Hq Hw. unfold push, stack_push, and_then.
  rewrite (read_some _ _ _ _ Hq), (modify_some _ _ _ _ Hq), Hw.
  reflexivity.
Qed.

(** [stop] always puts the plain [push] back. *)
Lemma stop_unwatches rec q w s :
  heap w !! q = Some s ->
  triggered s = true ->
  stop_event_listener s = None ->
  stop rec q w =
    Some (VUndefined,
          set_heap (<[q := set_watching false (set_triggered false s)]> (heap w)) w, []).
Proof.
  intros Hq Ht Hl. unfold stop, and_then.
  rewrite (read_some _ _ _ _ Hq), Ht. cbn [negb].
  rewrite (modify_some _ _ _ _ Hq).
  assert (Hlt : (q < length (heap w))%nat) by (eapply lookup_lt_Some, Hq).
  erewrite modify_some by (simpl; apply list_lookup_insert_eq, Hlt).
  erewrite read_some by (simpl; apply list_lookup_insert_eq;
                         rewrite length_insert; apply Hlt).
  simpl. rewrite Hl, list_insert_insert_eq. reflexivity.
Qed.

(** ** Traces *)

Lemma invocations_app f e1 e2 :
  invocations f (e1 ++ e2) = (invocations f e1 + invocations f e2)%nat.
Proof. unfold invocations. rewrite List.filter_app, length_app. reflexivity. Qed.

(** ** The barrier example: a closed set of worlds *)



(** ** requeue without refire: the simulation *)

Section Simulation.

Variable q0 : nat.

Lemma quiet_app t1 t2 : quiet (t1 ++ t2) = quiet t1 ++ quiet t2.
Proof. apply List.filter_app. Qed.

Lemma lookup_without_requeue_eq w :
  heap (without_requeue q0 w) !! q0 = clear_requeue <$> heap w !! q0.
Proof. simpl. apply list_lookup_alter_eq. Qed.

Lemma lookup_without_requeue_ne w q :
  q <> q0 -> heap (without_requeue q0 w) !! q = heap w !! q.
Proof. intros H. simpl. apply list_lookup_alter_ne. congruence. Qed.

Lemma alter_clear_insert_eq (H : list stack_callback) x :
  <[q0 := clear_requeue x]> (alter clear_requeue q0 H)
  = alter clear_requeue q0 (<[q0 := x]> H).
Proof.
  rewrite !list_insert_alter, !list_alter_alter_eq.
  apply list_alter_ext; [|reflexivity]. intros; reflexivity.
Qed.

Lemma alter_clear_insert_ne (H : list stack_callback) q x :
  q <> q0 ->
  <[q := x]> (alter clear_requeue q0 H) = alter clear_requeue q0 (<[q := x]> H).
Proof.
  intros Hne. rewrite !list_insert_alter.
  apply list_alter_alter_ne. exact Hne.
Qed.

Lemma alter_clear_app (H : list stack_callback) l :
  (q0 < length H)%nat ->
  alter clear_requeue q0 H ++ l = alter clear_requeue q0 (H ++ l).
Proof. intros Hlt. symmetry. apply alter_app_l, Hlt. Qed.

(** Under [sim], the flagged queue is there on both sides. *)
Lemma sim_lookup_eq w1 w2 :
  sim q0 w1 w2 ->
  exists s, heap w1 !! q0 = Some s /\ refire s = false
            /\ heap w2 !! q0 = Some (clear_requeue s).
Proof.
  intros [-> (s & Hs & Hr)]. exists s.
  rewrite lookup_without_requeue_eq, Hs. auto.
Qed.

Lemma sim_lookup_ne w1 w2 q :
  sim q0 w1 w2 -> q <> q0 -> heap w2 !! q = heap w1 !! q.
Proof. intros [-> _] Hne. apply lookup_without_requeue_ne, Hne. Qed.

Lemma related_same {A} (a : A) w1 w2 t :
  sim q0 w1 w2 -> related q0 (Some (a, w1, t)) (Some (a, w2, t)).
Proof. intros H. simpl. auto. Qed.

(** *** The monad *)

Lemma SimM_ret {A} (a : A) : SimM q0 (ret a) (ret a).
Proof. intros w1 w2 H. apply related_same, H. Qed.

Lemma SimM_fail {A} : SimM q0 (@fail A) (@fail A).
Proof. intros w1 w2 H. exact I. Qed.

Lemma SimM_bind {A B} (m1 m2 : M A) (k1 k2 : A -> M B) :
  SimM q0 m1 m2 ->
  (forall a, SimM q0 (k1 a) (k2 a)) ->
  SimM q0 (and_then m1 k1) (and_then m2 k2).
Proof.
  intros Hm Hk w1 w2 Hw. unfold and_then.
  specialize (Hm w1 w2 Hw). unfold related in Hm.
  destruct (m1 w1) as [[[a1 w1'] t1]|], (m2 w2) as [[[a2 w2'] t2]|];
    try contradiction; [|exact I].
  destruct Hm as (-> & Hw' & Ht).
  specialize (Hk a2 w1' w2' Hw'). unfold related in Hk.
  destruct (k1 a2 w1') as [[[b1 w1''] t1']|], (k2 a2 w2') as [[[b2 w2''] t2']|];
    try contradiction; [|exact I].
  destruct Hk as (-> & Hw'' & Ht'). simpl.
  rewrite !quiet_app, Ht, Ht'. auto.
Qed.

Lemma SimM_emit e : SimM q0 (emit e) (emit e).
Proof. intros w1 w2 H. apply related_same, H. Qed.

Lemma SimM_lift_option {A} (o : option A) : SimM q0 (lift_option o) (lift_option o).
Proof. destruct o; [apply SimM_ret|apply SimM_fail]. Qed.

(** The warning is the one difference in the traces. *)
Lemma SimM_warning b1 b2 :
  SimM q0 (when b1 (console_log RefireMustBeEnabled))
          (when b2 (console_log RefireMustBeEnabled)).
Proof.
  intros w1 w2 H. destruct b1, b2; simpl; auto.
Qed.

Lemma SimM_when b m1 m2 :
  SimM q0 m1 m2 -> SimM q0 (when b m1) (when b m2).
Proof. intros H. destruct b; [exact H|apply SimM_ret]. Qed.

(** *** Reading a queue *)

Lemma SimM_read {A} q (field : stack_callback -> A) :
  insensitive field -> SimM q0 (read q field) (read q field).
Proof.
  intros Hf w1 w2 Hw.
  destruct (decide (q = q0)) as [->|Hne].
  - destruct (sim_lookup_eq _ _ Hw) as (s & H1 & _ & H2).
    rewrite (read_some _ _ _ _ H1), (read_some _ _ _ _ H2), Hf.
    apply related_same, Hw.
  - pose proof (sim_lookup_ne _ _ q Hw Hne) as E.
    destruct (heap w1 !! q) as [s|] eqn:H1.
    + rewrite (read_some _ _ _ _ H1), (read_some _ _ _ _ E).
      apply related_same, Hw.
    + rewrite (read_none _ _ _ H1), (read_none _ _ _ E). exact I.
Qed.

Lemma SimM_read_ne {A} q (field : stack_callback -> A) :
  q <> q0 -> SimM q0 (read q field) (read q field).
Proof.
  intros Hne w1 w2 Hw.
  pose proof (sim_lookup_ne _ _ q Hw Hne) as E.
  destruct (heap w1 !! q) as [s|] eqn:H1.
  - rewrite (read_some _ _ _ _ H1), (read_some _ _ _ _ E).
    apply related_same, Hw.
  - rewrite (read_none _ _ _ H1), (read_none _ _ _ E). exact I.
Qed.

(** What is read from the flagged queue, when the rest of the
    computation does not depend on it. *)
Lemma SimM_read_eq_any {A B} (field : stack_callback -> A) (k1 k2 : A -> M B) :
  (forall a1 a2, SimM q0 (k1 a1) (k2 a2)) ->
  SimM q0 (and_then (read q0 field) k1) (and_then (read q0 field) k2).
Proof.
  intros Hk w1 w2 Hw. unfold and_then.
  destruct (sim_lookup_eq _ _ Hw) as (s & H1 & _ & H2).
  rewrite (read_some _ _ _ _ H1), (read_some _ _ _ _ H2).
  specialize (Hk (field s) (field (clear_requeue s)) w1 w2 Hw).
  unfold related in Hk.
  destruct (k1 _ w1) as [[[b1 w1'] t1]|], (k2 _ w2) as [[[b2 w2'] t2]|];
    try contradiction; [|exact I].
  exact Hk.
Qed.

(** The flagged queue has [refire] off. *)
Lemma SimM_read_refire_eq {B} (k1 k2 : bool -> M B) :
  SimM q0 (k1 false) (k2 false) ->
  SimM q0 (and_then (read q0 refire) k1) (and_then (read q0 refire) k2).
Proof.
  intros Hk w1 w2 Hw. unfold and_then.
  destruct (sim_lookup_eq _ _ Hw) as (s & H1 & Hr & H2).
  rewrite (read_some _ _ _ _ H1), (read_some _ _ _ _ H2).
  simpl. rewrite Hr.
  specialize (Hk w1 w2 Hw). unfold related in Hk.
  destruct (k1 _ w1) as [[[b1 w1'] t1]|], (k2 _ w2) as [[[b2 w2'] t2]|];
    try contradiction; [|exact I].
  exact Hk.
Qed.

(** *** Updating the world *)

Lemma SimM_modify q f :
  config_free f -> SimM q0 (modify q f) (modify q f).
Proof.
  intros Hf w1 w2 Hw.
  destruct (decide (q = q0)) as [->|Hne].
  - destruct (sim_lookup_eq _ _ Hw) as (s & H1 & Hr & H2).
    rewrite (modify_some _ _ _ _ H1), (modify_some _ _ _ _ H2).
    destruct Hw as [-> _]. simpl. split; [reflexivity|]. split; [|reflexivity].
    split.
    + unfold without_requeue, set_heap. simpl.
      rewrite <- (proj2 (Hf s)), alter_clear_insert_eq. reflexivity.
    + exists (f s). simpl. split.
      * apply list_lookup_insert_eq. eapply lookup_lt_Some, H1.
      * rewrite (proj1 (Hf s)). exact Hr.
  - pose proof (sim_lookup_ne _ _ q Hw Hne) as E.
    destruct (heap w1 !! q) as [s|] eqn:H1.
    + rewrite (modify_some _ _ _ _ H1), (modify_some _ _ _ _ E).
      destruct Hw as [-> (s0 & Hs0 & Hr0)]. simpl.
      split; [reflexivity|]. split; [|reflexivity]. split.
      * unfold without_requeue, set_heap. simpl.
        rewrite alter_clear_insert_ne by exact Hne. reflexivity.
      * exists s0. simpl. split; [|exact Hr0].
        rewrite list_lookup_insert_ne by exact Hne. exact Hs0.
    + rewrite (modify_none _ _ _ H1), (modify_none _ _ _ E). exact I.
Qed.

Lemma SimM_alloc_queue s : SimM q0 (alloc_queue s) (alloc_queue s).
Proof.
  intros w1 w2 [-> (s0 & Hs0 & Hr0)]. simpl.
  rewrite length_alter. split; [reflexivity|]. split; [|reflexivity]. split.
  - unfold without_requeue, set_heap. simpl.
    rewrite alter_clear_app by (eapply lookup_lt_Some, Hs0). reflexivity.
  - exists s0. split; [|exact Hr0]. simpl.
    apply lookup_app_l_Some, Hs0.
Qed.

(** The other components of the world are the same on both sides. *)
Lemma SimM_off_heap {A} (m : M A) :
  (forall w,
     match m w with
     | Some (a, w', t) =>
         heap w' = heap w /\
         forall h, m (set_heap h w) = Some (a, set_heap h w', t)
     | None => forall h, m (set_heap h w) = None
     end) ->
  SimM q0 m m.
Proof.
  intros Hm w1 w2 [-> Hs]. specialize (Hm w1).
  unfold without_requeue.
  destruct (m w1) as [[[a w'] t]|].
  - destruct Hm as [Hh Hm]. rewrite Hm. simpl.
    split; [reflexivity|]. split; [|reflexivity]. split.
    + unfold without_requeue. rewrite Hh. reflexivity.
    + rewrite Hh. exact Hs.
  - rewrite Hm. exact I.
Qed.

Lemma SimM_alloc_fun f : SimM q0 (alloc_fun f) (alloc_fun f).
Proof. apply SimM_off_heap. intros w. simpl. auto. Qed.

Lemma SimM_alloc_barrier l : SimM q0 (alloc_barrier l) (alloc_barrier l).
Proof. apply SimM_off_heap. intros w. simpl. auto. Qed.

Lemma SimM_defer t : SimM q0 (defer t) (defer t).
Proof. apply SimM_off_heap. intros w. simpl. auto. Qed.

Lemma SimM_take_deferred : SimM q0 take_deferred take_deferred.
Proof. apply SimM_off_heap. intros w. simpl. auto. Qed.

Lemma SimM_get_fun f : SimM q0 (get_fun f) (get_fun f).
Proof.
  apply SimM_off_heap. intros w. unfold get_fun, and_then, get_world. simpl.
  destruct (funs w !! f); simpl; auto.
Qed.

Lemma SimM_set_fun f body : SimM q0 (set_fun f body) (set_fun f body).
Proof. apply SimM_off_heap. intros w. simpl. auto. Qed.

Lemma SimM_get_barrier b : SimM q0 (get_barrier b) (get_barrier b).
Proof.
  apply SimM_off_heap. intros w. unfold get_barrier, and_then, get_world. simpl.
  destruct (barriers w !! b); simpl; auto.
Qed.

Lemma SimM_set_entry_triggered b i v :
  SimM q0 (set_entry_triggered b i v) (set_entry_triggered b i v).
Proof.
  apply SimM_off_heap. intros w.
  unfold set_entry_triggered, get_barrier, and_then, get_world. simpl.
  destruct (barriers w !! b) as [stacks|]; simpl; auto.
  destruct (stacks !! i); simpl; auto.
Qed.

(** *** The methods *)

Ltac sim_step :=
  first
    [ apply SimM_ret
    | apply SimM_fail
    | apply SimM_emit
    | apply SimM_lift_option
    | apply SimM_read; intros ?; reflexivity
    | apply SimM_read_ne; assumption
    | apply SimM_modify; intros ?; split; reflexivity
    | apply SimM_alloc_queue
    | apply SimM_alloc_fun
    | apply SimM_alloc_barrier
    | apply SimM_defer
    | apply SimM_take_deferred
    | apply SimM_get_fun
    | apply SimM_set_fun
    | apply SimM_get_barrier
    | apply SimM_set_entry_triggered
    | apply SimM_warning
    | assumption
    | match goal with H : context [SimM] |- _ => apply H end
    | match goal with
      | |- SimM _ (when ?b _) (when ?b _) => apply SimM_when
      | |- SimM _ (and_then _ _) (and_then _ _) => apply SimM_bind; [|intros ?]
      | |- SimM _ (if ?b then _ else _) (if ?b then _ else _) => destruct b
      | |- SimM _ (match ?x with _ => _ end) (match ?x with _ => _ end) => destruct x
      end ].

Ltac sim := repeat sim_step.

Lemma SimM_new_with_options o :
  SimM q0 (new_with_options o) (new_with_options o).
Proof. unfold new_with_options. sim. Qed.

Lemma SimM_new_with_bind b p :
  SimM q0 (new_with_bind b p) (new_with_bind b p).
Proof. unfold new_with_bind. sim. Qed.

Lemma SimM_remove q x : SimM q0 (remove q x) (remove q x).
Proof. unfold remove. sim. Qed.

Lemma SimM_empty q : SimM q0 (empty q) (empty q).
Proof. unfold empty. sim. Qed.

Lemma SimM_state q : SimM q0 (state q) (state q).
Proof. unfold state. sim. Qed.

Section WithRec.

Variable rec : call -> M value.
Hypothesis Hrec : forall c, SimM q0 (rec c) (rec c).

Lemma SimM_stop q : SimM q0 (stop rec q) (stop rec q).
Proof. unfold stop. sim. Qed.

Lemma SimM_watch_stack q : SimM q0 (watch_stack q) (watch_stack q).
Proof. unfold watch_stack. sim. Qed.

(** The one method that reads [requeue]. *)
Lemma SimM_dequeue q : SimM q0 (dequeue rec q) (dequeue rec q).
Proof.
  pose proof SimM_stop as Hstop.
  unfold dequeue.
  destruct (decide (q = q0)) as [->|Hne].
  - apply SimM_read_eq_any. intros rq1 rq2.
    apply SimM_bind; [sim|intros st]. cbv zeta.
    apply SimM_bind; [sim|intros _].
    apply SimM_read_refire_eq.
    apply SimM_bind; [sim|intros _].
    apply SimM_read_refire_eq.
    apply SimM_read_eq_any. intros rq1' rq2'.
    apply SimM_warning.
  - sim.
Qed.

Lemma SimM_stack_push q l : SimM q0 (stack_push rec q l) (stack_push rec q l).
Proof. pose proof SimM_dequeue. unfold stack_push. sim. Qed.

Lemma SimM_push q l : SimM q0 (push rec q l) (push rec q l).
Proof. pose proof SimM_stack_push. unfold push. sim. Qed.

Lemma SimM_trigger q : SimM q0 (trigger rec q) (trigger rec q).
Proof.
  pose proof SimM_dequeue. pose proof SimM_watch_stack.
  unfold trigger. sim.
Qed.

Lemma SimM_dequeue_loop q : SimM q0 (dequeue_loop rec q) (dequeue_loop rec q).
Proof. unfold dequeue_loop. sim. Qed.

Lemma SimM_addTriggerEventListener q r :
  SimM q0 (addTriggerEventListener rec q r) (addTriggerEventListener rec q r).
Proof.
  pose proof SimM_push. pose proof SimM_new_with_options.
  unfold addTriggerEventListener. sim.
Qed.

Lemma SimM_addStopEventListener q r :
  SimM q0 (addStopEventListener rec q r) (addStopEventListener rec q r).
Proof.
  pose proof SimM_push. pose proof SimM_new_with_options.
  unfold addStopEventListener. sim.
Qed.

Lemma SimM_run_task t : SimM q0 (run_task rec t) (run_task rec t).
Proof.
  pose proof SimM_addTriggerEventListener. pose proof SimM_addStopEventListener.
  unfold run_task. sim.
Qed.

Lemma SimM_run_tasks l : SimM q0 (run_tasks rec l) (run_tasks rec l).
Proof.
  pose proof SimM_run_task.
  induction l as [|t l IH]; simpl; sim.
Qed.

Lemma SimM_tick : SimM q0 (tick rec) (tick rec).
Proof. pose proof SimM_run_tasks. unfold tick. sim. Qed.

Lemma SimM_wire_stack b fc i e :
  SimM q0 (wire_stack rec b fc i e) (wire_stack rec b fc i e).
Proof.
  pose proof SimM_push.
  pose proof SimM_addTriggerEventListener. pose proof SimM_addStopEventListener.
  unfold wire_stack. sim.
Qed.

Lemma SimM_wire_stacks b fc i l :
  SimM q0 (wire_stacks rec b fc i l) (wire_stacks rec b fc i l).
Proof.
  pose proof SimM_wire_stack.
  revert i. induction l as [|e l IH]; intros i; simpl; sim.
Qed.

Lemma SimM_push_all l : SimM q0 (push_all rec l) (push_all rec l).
Proof.
  pose proof SimM_wire_stacks.
  unfold push_all. destruct (scan_arguments l None []) as [[cb|] st]; sim.
Qed.

Lemma SimM_exec_op o : SimM q0 (exec_op rec o) (exec_op rec o).
Proof.
  destruct o; simpl.
  - pose proof SimM_new_with_options. sim.
  - pose proof SimM_new_with_bind. sim.
  - sim.
  - apply SimM_push.
  - apply SimM_trigger.
  - apply SimM_stop.
  - apply SimM_remove.
  - apply SimM_empty.
  - apply SimM_state.
  - apply SimM_addTriggerEventListener.
  - apply SimM_addStopEventListener.
  - apply SimM_push_all.
Qed.

Lemma SimM_run_body body : SimM q0 (run_body rec body) (run_body rec body).
Proof.
  pose proof SimM_exec_op.
  induction body as [|o body IH]; simpl; sim.
Qed.

Lemma SimM_apply f this : SimM q0 (apply rec f this) (apply rec f this).
Proof. pose proof SimM_run_body. unfold apply. sim. Qed.

End WithRec.

Lemma SimM_run fuel : forall c, SimM q0 (run fuel c) (run fuel c).
Proof.
  induction fuel as [|n IH]; intros c; simpl.
  - apply SimM_fail.
  - destruct c.
    + apply SimM_trigger, IH.
    + apply SimM_dequeue_loop, IH.
    + apply SimM_apply, IH.
Qed.

Lemma SimM_exec fuel a : SimM q0 (exec fuel a) (exec fuel a).
Proof.
  pose proof (SimM_run fuel) as Hrun.
  destruct a; simpl.
  - apply SimM_exec_op, Hrun.
  - sim.
  - apply SimM_tick, Hrun.
Qed.

Lemma SimM_exec_all fuel l : SimM q0 (exec_all fuel l) (exec_all fuel l).
Proof.
  pose proof (SimM_exec fuel).
  induction l as [|o l IH]; simpl; sim.
Qed.

End Simulation.

(** ** Stepping through a script in an arbitrary world *)

Lemma and_then_assoc {A B C} (m : M A) (k1 : A -> M B) (k2 : B -> M C) w :
  and_then (and_then m k1) k2 w = and_then m (fun a => and_then (k1 a) k2) w.
Proof.
  unfold and_then.
  destruct (m w) as [[[a w1] e1]|]; [|reflexivity].
  destruct (k1 a w1) as [[[b w2] e2]|]; [|reflexivity].
  destruct (k2 b w2) as [[[c w3] e3]|]; [|reflexivity].
  rewrite (assoc_L (++)). reflexivity.
Qed.

Lemma and_then_pure {A B} (m : M A) (k : A -> M B) w a w1 :
  m w = Some (a, w1, []) -> and_then m k w = k a w1.
Proof.
  intros H. unfold and_then. rewrite H.
  destruct (k a w1) as [[[b w2] e2]|]; reflexivity.
Qed.

Lemma and_then_emit {B} e (k : unit -> M B) w :
  and_then (emit e) k w = prefix [e] (k tt w).
Proof. reflexivity. Qed.

Section Frame.

Variables (H : list stack_callback) (F : list fn) (B : list (list entry)).
Variable q : nat.
Hypothesis Hlt : (q < length H)%nat.

Lemma read_q {A} (field : stack_callback -> A) sq L D :
  read q field (W H F B q sq L D) = Some (field sq, W H F B q sq L D, []).
Proof.
  apply read_some. simpl. unfold NF.
  apply lookup_app_l_Some, list_lookup_insert_eq, Hlt.
Qed.


Lemma modify_q f sq L D :
  modify q f (W H F B q sq L D) = Some (tt, W H F B q (f sq) L D, []).
Proof.
  erewrite modify_some
    by (simpl; unfold NF; apply lookup_app_l_Some, list_lookup_insert_eq, Hlt).
  unfold W, NF, set_heap. simpl.
  rewrite insert_app_l by (rewrite length_insert; exact Hlt).
  rewrite list_insert_insert_eq. reflexivity.
Qed.

Lemma read_c {A} (field : stack_callback -> A) i c sq L D :
  L !! i = Some c ->
  read (length H + i) field (W H F B q sq L D) = Some (field c, W H F B q sq L D, []).
Proof.
  intros Hc. apply read_some. simpl. unfold NF.
  rewrite lookup_app_r by (rewrite length_insert; lia).
  rewrite length_insert. replace (length H + i - length H)%nat with i by lia.
  exact Hc.
Qed.

Lemma modify_c f i c sq L D :
  L !! i = Some c ->
  modify (length H + i) f (W H F B q sq L D) = Some (tt, W H F B q sq (<[i := f c]> L) D, []).
Proof.
  intros Hc.
  erewrite modify_some.
  2:{ simpl. unfold NF.
      rewrite lookup_app_r by (rewrite length_insert; lia).
      rewrite length_insert. replace (length H + i - length H)%nat with i by lia.
      exact Hc. }
  unfold W, NF, set_heap. simpl.
  rewrite insert_app_r_alt by (rewrite length_insert; lia).
  rewrite length_insert. replace (length H + i - length H)%nat with i by lia.
  reflexivity.
Qed.

Lemma alloc_queue_W c sq L D :
  alloc_queue c (W H F B q sq L D)
  = Some ((length H + length L)%nat, W H F B q sq (L ++ [c]) D, []).
Proof.
  unfold alloc_queue, and_then, get_world, put_world, ret, W, NF, set_heap. simpl.
  rewrite length_app, length_insert, (assoc_L (++)). reflexivity.
Qed.

Lemma defer_W t sq L D :
  defer t (W H F B q sq L D) = Some (tt, W H F B q sq L (D ++ [t]), []).
Proof. reflexivity. Qed.

Lemma get_fun_W f body sq L D :
  F !! f = Some body ->
  get_fun f (W H F B q sq L D) = Some (body, W H F B q sq L D, []).
Proof.
  intros Hf. unfold get_fun, and_then, get_world. simpl. rewrite Hf. reflexivity.
Qed.

Lemma lookup_W_q sq L D :
  heap (W H F B q sq L D) !! q = Some sq.
Proof.
  simpl. unfold NF. apply lookup_app_l_Some, list_lookup_insert_eq, Hlt.
Qed.

Lemma lookup_W_c i sq L D :
  heap (W H F B q sq L D) !! (length H + i)%nat = L !! i.
Proof.
  simpl. unfold NF.
  rewrite lookup_app_r by (rewrite length_insert; lia).
  rewrite length_insert. f_equal. lia.
Qed.

Lemma lookup_W_first sq L D :
  heap (W H F B q sq L D) !! length H = L !! 0%nat.
Proof. rewrite <- (Nat.add_0_r (length H)) at 1. apply lookup_W_c. Qed.

Lemma lookup_W_second sq L D :
  heap (W H F B q sq L D) !! S (length H) = L !! 1%nat.
Proof. rewrite <- (Nat.add_1_r (length H)) at 1. apply lookup_W_c. Qed.

End Frame.


Lemma run_S n c :
  run (S n) c =
  match c with
  | Trigger q => trigger (run n) q
  | DequeueLoop q => dequeue_loop (run n) q
  | Apply f this => apply (run n) f this
  end.
Proof. reflexivity. Qed.

Lemma and_then_run_S {B} n c (k : value -> M B) w :
  and_then (run (S n) c) k w =
  and_then match c with
           | Trigger q => trigger (run n) q
           | DequeueLoop q => dequeue_loop (run n) q
           | Apply f this => apply (run n) f this
           end k w.
Proof. reflexivity. Qed.

Lemma W_id (w : world) q s :
  heap w !! q = Some s ->
  w = W (heap w) (funs w) (barriers w) q s [] (deferred w).
Proof.
  intros Hq. unfold W, NF. rewrite app_nil_r, list_insert_id by exact Hq.
  destruct w; reflexivity.
Qed.

(** One step of a script in a framed world: the head of the computation
    is a primitive on a known queue, a trace event, or a call of the
    interpreter. *)
Ltac side := first [assumption | reflexivity | eassumption].

Ltac prim :=
  first [ apply read_q; side
        | apply modify_q; side
        | apply read_c; side
        | apply modify_c; side
        | apply alloc_queue_W; side
        | apply defer_W; side
        | apply get_fun_W; side ].

Ltac step0 :=
  unfold exec_op;
  cbn;
  unfold trigger, stop, dequeue, dequeue_loop, stack_push, push, watch_stack, apply,
         addTriggerEventListener, addStopEventListener, new_with_options, when,
         console_log, remove, empty, state;
  cbn;
  first [ rewrite and_then_assoc
        | rewrite and_then_ret
        | erewrite and_then_pure by prim
        | rewrite and_then_emit ];
  cbn.

Ltac step := first [ step0 | rewrite and_then_run_S; cbn ].


(** ** Draining a stack of well-behaved entries *)

Lemma with_queue_id q s w : heap w !! q = Some s -> with_queue q s w = w.
Proof.
  intros H. unfold with_queue, set_heap. rewrite list_insert_id by exact H.
  destruct w; reflexivity.
Qed.

Lemma with_queue_twice q s s' w :
  with_queue q s (with_queue q s' w) = with_queue q s w.
Proof.
  unfold with_queue, set_heap. simpl. rewrite list_insert_insert_eq. reflexivity.
Qed.

Lemma lookup_with_queue q s w :
  (q < length (heap w))%nat -> heap (with_queue q s w) !! q = Some s.
Proof. intros H. simpl. apply list_lookup_insert_eq, H. Qed.

Lemma set_stack_same s : set_stack (stack s) s = s.
Proof. destruct s; reflexivity. Qed.

Lemma drain_simple n items :
  forall w q s,
    heap w !! q = Some s ->
    stack s = items ->
    Forall (simple_item (funs w)) items ->
    run (S (S (length items + n))) (DequeueLoop q) w
    = Some (VUndefined, with_queue q (set_stack [] s) w, invoked_by (bind s) items).
Proof.
  induction items as [|x rest IH]; intros w q s Hq Hs Hall.
  - rewrite run_S. unfold dequeue_loop.
    rewrite (and_then_pure _ _ _ _ _ (read_some _ _ _ _ Hq)), Hs.
    assert (E : set_stack [] s = s) by (rewrite <- Hs at 1; apply set_stack_same).
    rewrite E, with_queue_id by exact Hq. reflexivity.
  - apply Forall_cons in Hall as [[Ht Hx] Hall].
    assert (Hlt : (q < length (heap w))%nat) by (eapply lookup_lt_Some, Hq).
    rewrite run_S. unfold dequeue_loop.
    rewrite (and_then_pure _ _ _ _ _ (read_some _ _ _ _ Hq)), Hs.
    rewrite (and_then_pure _ _ _ _ _ (modify_some _ _ _ _ Hq)), Ht.
    fold (with_queue q (set_stack rest s) w).
    pose proof (lookup_with_queue q (set_stack rest s) w Hlt) as Hq'.
    specialize (IH (with_queue q (set_stack rest s) w) q (set_stack rest s)
                  Hq' eq_refl Hall).
    rewrite with_queue_twice in IH. simpl bind in IH.
    destruct x as [| |b0|z0|s0|o|q1|f]; cbn [is_function];
      try (rewrite and_then_ret; exact IH).
    rewrite and_then_assoc.
    rewrite (and_then_pure _ _ _ _ _ (read_some _ _ _ _ Hq')).
    rewrite and_then_assoc. simpl length.
    rewrite and_then_run_S. unfold apply.
    rewrite and_then_assoc.
    assert (Hf : get_fun f (with_queue q (set_stack rest s) w)
                 = Some (Native, with_queue q (set_stack rest s) w, [])).
    { unfold get_fun, and_then, get_world. simpl. rewrite (Hx f eq_refl). reflexivity. }
    rewrite (and_then_pure _ _ _ _ _ Hf).
    rewrite and_then_assoc, and_then_emit, !and_then_ret.
    change (S (S (length rest) + n)) with (S (S (length rest + n))).
    rewrite IH. reflexivity.
Qed.

Lemma and_then_step {A B} (m : M A) (k : A -> M B) w a w1 e :
  m w = Some (a, w1, e) -> and_then m k w = prefix e (k a w1).
Proof. intros H. unfold and_then. rewrite H. reflexivity. Qed.

Lemma with_queue_W H F B q s s' L D :
  (q < length H)%nat ->
  with_queue q s' (W H F B q s L D) = W H F B q s' L D.
Proof.
  intros Hlt. unfold with_queue, W, NF, set_heap. simpl.
  rewrite insert_app_l by (rewrite length_insert; exact Hlt).
  rewrite list_insert_insert_eq. reflexivity.
Qed.

Section Triggering.

Local Opaque and_then read modify alloc_queue defer get_fun emit W NF run.

(** The drain loop on the queue of a framed world. *)
Lemma drain_simple_W n H F B q s L D items :
  (q < length H)%nat ->
  stack s = items ->
  Forall (simple_item F) items ->
  run (S (S (length items + n))) (DequeueLoop q) (W H F B q s L D)
  = Some (VUndefined, W H F B q (set_stack [] s) L D, invoked_by (bind s) items).
Proof.
  intros Hlt Hs Hall.
  rewrite (drain_simple n items _ q s (lookup_W_q H F B q Hlt s L D) Hs Hall).
  rewrite with_queue_W by exact Hlt. reflexivity.
Qed.

(** A waiting queue without flags and without trigger listener, holding
    well-behaved entries: [trigger()] invokes every function on the
    stack, in order, skips the other entries, and leaves the stack
    empty and the queue triggered. *)
Lemma trigger_plain_drains n w q s :
  heap w !! q = Some s ->
  triggered s = false ->
  refire s = false ->
  requeue s = false ->
  trigger_event_listener s = None ->
  Forall (simple_item (funs w)) (stack s) ->
  exec (S (S (length (stack s) + n))) (Do (OpTrigger q)) w
  = Some (VUndefined,
          with_queue q (set_watching true (set_stack [] (set_triggered true s))) w,
          invoked_by (bind s) (stack s)).
Proof.
  intros Hq Ht Hrf Hrq Hl Hall.
  assert (Hlt : (q < length (heap w))%nat) by (eapply lookup_lt_Some, Hq).
  rewrite (W_id w q s Hq) at 1 2.
  rewrite with_queue_W by exact Hlt.
  destruct s as [b rf rq t st wt tel sel]. simpl in *. subst.
  repeat step0.
  erewrite and_then_step
    by (apply (drain_simple_W n); [assumption|reflexivity|assumption]).
  repeat step0.
  rewrite app_nil_r. reflexivity.
Qed.

(** A waiting queue with [refire] and [requeue], triggered for the
    first time, without listeners, holding well-behaved entries:
    [trigger()] invokes every function on the stack, in order, and
    leaves the queue waiting with the stack it had at the start. *)
Lemma trigger_refire_requeue_restores n w q s :
  heap w !! q = Some s ->
  triggered s = false ->
  watching s = false ->
  refire s = true ->
  requeue s = true ->
  trigger_event_listener s = None ->
  stop_event_listener s = None ->
  Forall (simple_item (funs w)) (stack s) ->
  exec (S (S (length (stack s) + n))) (Do (OpTrigger q)) w
  = Some (VUndefined, with_queue q (set_watching true s) w,
          invoked_by (bind s) (stack s)).
Proof.
  intros Hq Ht Hw Hrf Hrq Hl Hl' Hall.
  assert (Hlt : (q < length (heap w))%nat) by (eapply lookup_lt_Some, Hq).
  rewrite (W_id w q s Hq) at 1 2.
  rewrite with_queue_W by exact Hlt.
  destruct s as [b rf rq t st wt tel sel]. simpl in *. subst.
  repeat step0.
  erewrite and_then_step
    by (apply (drain_simple_W n); [assumption|reflexivity|assumption]).
  repeat step0.
  rewrite app_nil_r. reflexivity.
Qed.

(** The same queue holding [p; a], where [p] pushes [g] into the queue
    itself: [g] is invoked in the drain that [p] is part of, after [a],
    and is not on the stack afterwards. *)
Lemma pushed_item_runs_in_the_drain n w q b p a g :
  heap w !! q = Some (mk_stack_callback b true true false
                        [VFunction p; VFunction a] false None None) ->
  funs w !! p = Some (Calls [OpPush q [VFunction g]]) ->
  funs w !! a = Some Native ->
  funs w !! g = Some Native ->
  exec (5 + n) (Do (OpTrigger q)) w
  = Some (VUndefined,
          with_queue q (mk_stack_callback b true true false
                          [VFunction p; VFunction a] true None None) w,
          [Invoked a b; Invoked g b]).
Proof.
  intros Hq Hp Ha Hg.
  assert (Hlt : (q < length (heap w))%nat) by (eapply lookup_lt_Some, Hq).
  rewrite (W_id w q _ Hq) at 1 2.
  rewrite with_queue_W by exact Hlt.
  cbn [exec Nat.add].
  repeat step. reflexivity.
Qed.

(** A truthy entry that is no function is skipped. *)
Lemma truthy_entry_is_skipped n w q b f0 o f1 :
  heap w !! q = Some (mk_stack_callback b false false false
                        [VFunction f0; VObject o; VFunction f1] false None None) ->
  funs w !! f0 = Some Native ->
  funs w !! f1 = Some Native ->
  exec (5 + n) (Do (OpTrigger q)) w
  = Some (VUndefined,
          with_queue q (mk_stack_callback b false false true [] true None None) w,
          [Invoked f0 b; Invoked f1 b]).
Proof.
  intros Hq H0 H1.
  assert (Hlt : (q < length (heap w))%nat) by (eapply lookup_lt_Some, Hq).
  rewrite (W_id w q _ Hq) at 1 2.
  rewrite with_queue_W by exact Hlt.
  cbn [exec Nat.add].
  repeat step. reflexivity.
Qed.

End Triggering.

(** * The claims *)

(** ** Claims settled by running the code *)

(** C1. While a queue is Waiting, push is claimed to append only and to
    invoke nothing, also in the Waiting state a refire queue returns to
    by itself at the end of [trigger()].  The code at that input:
    [q = new stack_callback({refire: true}); q.trigger()] leaves [q]
    waiting, and [q.push(f)] then invokes [f] at once and leaves the
    stack empty, because [trigger] calls [watch_stack] after the
    [stop] that [dequeue] made. *)
Theorem push_after_refire_trigger_invokes :
  exists w w',
    exec_all 10 [Do (New (flags true false)); NewFunction Native;
                 Do (OpTrigger 0)] empty_world
      = Some ([VStack 0; VFunction 0; VUndefined], w, [])
    /\ exec 10 (Do (OpState 0)) w = Some (VStr "waiting", w, [])
    /\ stack_of w 0 = Some []
    /\ exec 10 (Do (OpPush 0 [VFunction 0])) w
      = Some (VStack 0, w', [Invoked 0 VUndefined])
    /\ stack_of w' 0 = Some []
    /\ triggered_of w' 0 = Some false.
Proof.
  do 2 eexists. by_running.
Qed.

(** C2. A drain is claimed to end only on an empty stack, so that every
    invocable item is invoked whatever non-invocable entries sit between
    them.  The code at [q.push(f0, null, f1); q.trigger()]: [f0] runs,
    the loop [while(fn = stack.shift())] ends on [null], and [f1] stays
    on the stack, never invoked, with the queue triggered. *)
Theorem falsy_entry_ends_the_drain :
  exists w w',
    exec_all 10 [new_plain; NewFunction Native; NewFunction Native;
                 Do (OpPush 0 [VFunction 0; VNull; VFunction 1])] empty_world
      = Some ([VStack 0; VFunction 0; VFunction 1; VStack 0], w, [])
    /\ stack_of w 0 = Some [VFunction 0; VNull; VFunction 1]
    /\ exec 10 (Do (OpTrigger 0)) w = Some (VUndefined, w', [Invoked 0 VUndefined])
    /\ stack_of w' 0 = Some [VFunction 1]
    /\ triggered_of w' 0 = Some true.
Proof.
  do 2 eexists. by_running.
Qed.

(** C3. A trigger-edge listener is claimed to run once for each
    Waiting-to-Triggered transition and at no other time, in particular
    not when a further listener is registered between two transitions.
    The code at [q.addTriggerEventListener(f0); q.trigger(); q.stop();
    q.addTriggerEventListener(f1); q.trigger()]: registering [f1] runs
    [f0] (and [f1]) on the spot, so that [f0] has run three times over
    two transitions. *)
Theorem registering_a_listener_fires_the_others :
  exists w1 w2 w3,
    exec_all 10 [new_plain; NewFunction Native; NewFunction Native;
                 Do (OpAddTriggerEventListener 0 (VFunction 0));
                 Do (OpTrigger 0); Do (OpStop 0)] empty_world
      = Some ([VStack 0; VFunction 0; VFunction 1; VUndefined; VUndefined; VUndefined],
              w1, [Invoked 0 VUndefined])
    /\ triggered_of w1 0 = Some false
    /\ exec 10 (Do (OpAddTriggerEventListener 0 (VFunction 1))) w1
      = Some (VUndefined, w2, [Invoked 0 VUndefined; Invoked 1 VUndefined])
    /\ triggered_of w2 0 = Some false
    /\ exec 10 (Do (OpTrigger 0)) w2
      = Some (VUndefined, w3, [Invoked 0 VUndefined; Invoked 1 VUndefined]).
Proof.
  do 3 eexists. by_running.
Qed.

(** C4. With refire and requeue on, [trigger()] is claimed to drain the
    queue, invoking what is pushed during the drain, and to leave the
    items of the start of the drain requeued.  The code at a queue
    holding [p; null], where [p] pushes [g] into the same queue: the
    loop ends on [null], [g] is never invoked, the stack error is
    logged, and [g] is left on the stack in front of the requeued
    snapshot. *)
Theorem pushed_item_left_uninvoked :
  exists w w',
    exec_all 10 [Do (New (flags true true)); NewFunction Native;
                 NewFunction (Calls [OpPush 0 [VFunction 0]]);
                 Do (OpPush 0 [VFunction 1; VNull])] empty_world
      = Some ([VStack 0; VFunction 0; VFunction 1; VStack 0], w, [])
    /\ stack_of w 0 = Some [VFunction 1; VNull]
    /\ exec 10 (Do (OpTrigger 0)) w
      = Some (VUndefined, w', [ConsoleLog (StackError [VFunction 0])])
    /\ stack_of w' 0 = Some [VFunction 0; VFunction 1; VNull]
    /\ triggered_of w' 0 = Some false.
Proof.
  do 2 eexists. by_running.
Qed.

(** C6. [remove(itemRef)] is claimed to leave the stack alone when
    [itemRef] is not on it.  The code at a stack [f0; f1] and
    [remove(f2)]: [_.indexOf] answers [-1] and [splice(-1, 1)] takes
    [f1], the last entry, off the stack. *)
Theorem remove_absent_callback_drops_last :
  exists w w',
    exec_all 0 [new_plain; NewFunction Native; NewFunction Native; NewFunction Native;
                Do (OpPush 0 [VFunction 0; VFunction 1])] empty_world
      = Some ([VStack 0; VFunction 0; VFunction 1; VFunction 2; VStack 0], w, [])
    /\ stack_of w 0 = Some [VFunction 0; VFunction 1]
    /\ exec 0 (Do (OpRemove 0 (VFunction 2))) w = Some (VUndefined, w', [])
    /\ stack_of w' 0 = Some [VFunction 0].
Proof.
  do 2 eexists. by_running.
Qed.

(** ** push_all without a callback, and with several *)

(** C7. When no argument of [push_all] is a function, the call logs the
    missing callback, returns [false], and changes nothing: no queue
    gets an item or a listener, no object is created. *)
Theorem push_all_without_callback fuel arguments w :
  Forall (fun a => is_function a = false) arguments ->
  exec fuel (Do (OpPushAll arguments)) w
    = Some (VBool false, w, [ConsoleLog (PushAllMissingCallback arguments)])
  /\ truthy (VBool false) = false.
Proof.
  intros H. split; [|reflexivity].
  simpl. unfold push_all.
  pose proof (scan_arguments_no_function arguments None [] H) as Hc.
  destruct (scan_arguments arguments None []) as [cb st].
  simpl in Hc. subst cb. reflexivity.
Qed.

Lemma push_all_without_callback_witness :
  Forall (fun a => is_function a = false) [VStack 0; VNum 3; VStack 1]
  /\ exec 5 (Do (OpPushAll [VStack 0; VNum 3; VStack 1])) empty_world
     = Some (VBool false, empty_world,
             [ConsoleLog (PushAllMissingCallback [VStack 0; VNum 3; VStack 1])]).
Proof.
  assert (H : Forall (fun a => is_function a = false) [VStack 0; VNum 3; VStack 1])
    by (repeat constructor).
  split; [exact H|].
  exact (proj1 (push_all_without_callback 5 _ empty_world H)).
Defined.

(** C10. When [push_all] is given several functions, the last one, in
    the order of the arguments, is the one wrapped by [_.once] as final
    callback; the earlier ones are dropped: they are no tracked entry,
    and the call does exactly what it does without them. *)
Theorem push_all_keeps_last_function fuel before f after w :
  Forall (fun a => is_function a = false) after ->
  fst (scan_arguments (before ++ VFunction f :: after) None []) = Some (VFunction f)
  /\ exec fuel (Do (OpPushAll (before ++ VFunction f :: after))) w
     = (final_callback <<- alloc_fun (Once (VFunction f) false);
        b <<- alloc_barrier (tracked (before ++ after));
        wire_stacks (run fuel) b final_callback 0 (tracked (before ++ after)) >>;
        ret VUndefined) w
  /\ (forall e, e ∈ tracked (before ++ after) ->
        exists q, VStack q ∈ before ++ after /\ e = mk_entry q false)
  /\ exec fuel (Do (OpPushAll (before ++ VFunction f :: after))) w
     = exec fuel (Do (OpPushAll (without_functions before ++ VFunction f :: after))) w.
Proof.
  intros H.
  assert (Ht : forall l, tracked (l ++ VFunction f :: after) = tracked (l ++ after)).
  { intros l. rewrite !tracked_app. reflexivity. }
  split; [apply scan_arguments_last, H|].
  split.
  { simpl. rewrite (push_all_scan _ _ (VFunction f)) by apply scan_arguments_last, H.
    rewrite Ht. reflexivity. }
  split; [apply tracked_are_stacks|].
  simpl.
  rewrite !(push_all_scan _ _ (VFunction f)) by apply scan_arguments_last, H.
  rewrite !Ht, !tracked_app, tracked_without_functions. reflexivity.
Qed.

Lemma push_all_keeps_last_function_witness :
  Forall (fun a => is_function a = false) [VStack 0]
  /\ fst (scan_arguments ([VFunction 0; VStack 1] ++ VFunction 1 :: [VStack 0]) None [])
     = Some (VFunction 1).
Proof.
  assert (H : Forall (fun a => is_function a = false) [VStack 0])
    by (repeat constructor).
  split; [exact H|].
  exact (proj1 (push_all_keeps_last_function 5 [VFunction 0; VStack 1] 1 [VStack 0]
                  empty_world H)).
Defined.

(** ** The barrier *)


(** ** requeue without refire *)

(** C8. A queue created with [requeue] on and [refire] off behaves as
    the same queue created with [requeue] off: whatever script follows
    the creation, from whatever world, the two runs return the same
    values, both end or both do not, their traces are the same once the
    "Refire must be enabled" warnings are left out, and the final
    worlds differ in nothing but the [requeue] flag of that queue; in
    particular the stacks and the states of all queues are the same. *)
Theorem requeue_without_refire_is_inert fuel w b p tc sc script :
  related (length (heap w))
    (exec_all fuel (Do (New (mk_options b false true p tc sc)) :: script) w)
    (exec_all fuel (Do (New (mk_options b false false p tc sc)) :: script) w).
Proof.
  set (q0 := length (heap w)).
  set (s := mk_stack_callback b false true false (perfect_prepopulated_stack p)
              false None None).
  set (w1 := mk_world (heap w ++ [s]) (funs w) (barriers w)
               (deferred w ++ [mk_task q0 tc sc])).
  assert (Hsim : sim q0 w1 (without_requeue q0 w1)).
  { split; [reflexivity|]. exists s. split; [|reflexivity].
    simpl. apply list_lookup_middle. reflexivity. }
  assert (E1 : exec fuel (Do (New (mk_options b false true p tc sc))) w
               = Some (VStack q0, w1, [])) by reflexivity.
  assert (E2 : exec fuel (Do (New (mk_options b false false p tc sc))) w
               = Some (VStack q0, without_requeue q0 w1, [])).
  { assert (Hh : alter clear_requeue q0 (heap w ++ [s])
                  = heap w ++ [clear_requeue s]).
    { unfold q0. rewrite <- (Nat.add_0_r (length (heap w))) at 1.
      rewrite alter_app_r. reflexivity. }
    unfold without_requeue, set_heap, w1. simpl heap. rewrite Hh.
    reflexivity. }
  cbn [exec_all]. unfold and_then at 1 3. rewrite E1, E2.
  pose proof (SimM_bind q0 _ _ _ _ (SimM_exec_all q0 fuel script)
                (fun vs => SimM_ret q0 (VStack q0 :: vs)) w1 _ Hsim) as H.
  unfold related in H |- *.
  destruct (and_then (exec_all fuel script) _ w1) as [[[vs1 w1'] t1]|],
           (and_then (exec_all fuel script) _ (without_requeue q0 w1))
             as [[[vs2 w2'] t2]|]; try contradiction; [|exact I].
  exact H.
Qed.

(** The warning is there to be seen: with [requeue] on and [refire]
    off, [trigger()] logs it, and the stack ends empty all the same. *)
Example requeue_without_refire_warns :
  exists w w',
    exec_all 10 [Do (New (flags false true)); NewFunction Native;
                 Do (OpPush 0 [VFunction 0])] empty_world
      = Some ([VStack 0; VFunction 0; VStack 0], w, [])
    /\ exec 10 (Do (OpTrigger 0)) w
      = Some (VUndefined, w', [Invoked 0 VUndefined; ConsoleLog RefireMustBeEnabled])
    /\ stack_of w' 0 = Some []
    /\ triggered_of w' 0 = Some true.
Proof. do 2 eexists. by_running. Qed.

(** ** The bind of the edge listeners *)

Section BindSnapshot.

Local Opaque and_then read modify alloc_queue defer get_fun emit W NF run.

(** C9. Take any world and in it a waiting queue [q] with bind [b], an
    empty stack and no listener yet, whatever its flags.  Register a
    trigger listener [f] and a stop listener [h], reassign the bind of
    [q] to [v], register two more listeners [k] and [m], push an item
    [g], then trigger and stop [q].  The item runs with the new bind
    [v]; the four listeners, those registered before the reassignment
    and those registered after it, run with [b], which the two child
    queues copied when they were created and still hold at the end. *)
Theorem edge_listeners_keep_bind_snapshot n w q b rf rq v f h k m g :
  heap w !! q = Some (mk_stack_callback b rf rq false [] false None None) ->
  funs w !! f = Some Native ->
  funs w !! h = Some Native ->
  funs w !! k = Some Native ->
  funs w !! m = Some Native ->
  funs w !! g = Some Native ->
  exists vs w',
    exec_all (5 + n)
      [Do (OpAddTriggerEventListener q (VFunction f));
       Do (OpAddStopEventListener q (VFunction h));
       Do (SetBind q v);
       Do (OpAddTriggerEventListener q (VFunction k));
       Do (OpAddStopEventListener q (VFunction m));
       Do (OpPush q [VFunction g]);
       Do (OpTrigger q);
       Do (OpStop q)] w
    = Some (vs, w', snapshot_trace rf rq b v f h k m g)
    /\ bind_of w' q = Some v
    /\ (trigger_event_listener <$> heap w' !! q) = Some (Some (length (heap w)))
    /\ (stop_event_listener <$> heap w' !! q) = Some (Some (S (length (heap w))))
    /\ bind_of w' (length (heap w)) = Some b
    /\ bind_of w' (S (length (heap w))) = Some b.
Proof.
  intros Hq Hf Hh Hk Hm Hg.
  assert (Hlt : (q < length (heap w))%nat) by (eapply lookup_lt_Some, Hq).
  destruct rf, rq;
    (do 2 eexists;
     rewrite (W_id w q _ Hq) at 1;
     cbn [exec_all exec];
     split; [repeat step; reflexivity|];
     unfold bind_of;
     rewrite !lookup_W_q, !lookup_W_first, !lookup_W_second by exact Hlt;
     simpl; rewrite Nat.add_0_r, Nat.add_1_r;
     repeat split; reflexivity).
Qed.

Lemma edge_listeners_keep_bind_snapshot_witness :
  exists vs w',
    exec_all 5
      [Do (OpAddTriggerEventListener 0 (VFunction 0));
       Do (OpAddStopEventListener 0 (VFunction 1));
       Do (SetBind 0 (VStr "later"));
       Do (OpAddTriggerEventListener 0 (VFunction 2));
       Do (OpAddStopEventListener 0 (VFunction 3));
       Do (OpPush 0 [VFunction 4]);
       Do (OpTrigger 0);
       Do (OpStop 0)]
      (mk_world [mk_stack_callback (VStr "first") false false false [] false None None]
                [Native; Native; Native; Native; Native] [] [])
    = Some (vs, w',
            [Invoked 4 (VStr "later");
             Invoked 0 (VStr "first"); Invoked 2 (VStr "first");
             Invoked 1 (VStr "first"); Invoked 3 (VStr "first")]).
Proof.
  destruct (edge_listeners_keep_bind_snapshot 0
              (mk_world [mk_stack_callback (VStr "first") false false false []
                           false None None]
                        [Native; Native; Native; Native; Native] [] [])
              0 (VStr "first") false false (VStr "later") 0 1 2 3 4
              eq_refl eq_refl eq_refl eq_refl eq_refl eq_refl)
    as (vs & w' & H & _).
  exists vs, w'. exact H.
Defined.

End BindSnapshot.

(** * Further properties of the queue *)

(** ** trigger and stop when there is nothing to do *)

(** X1. [trigger()] on a queue that is already triggered returns
    [false] and does nothing: no item is invoked, no listener runs, the
    world is the same.  No fuel is needed. *)
Theorem trigger_while_triggered fuel w q s :
  heap w !! q = Some s ->
  triggered s = true ->
  exec fuel (Do (OpTrigger q)) w = Some (VBool false, w, []).
Proof.
  intros Hq Ht. simpl. unfold trigger.
  rewrite (and_then_pure _ _ _ _ _ (read_some _ _ _ _ Hq)), Ht. reflexivity.
Qed.

Lemma trigger_while_triggered_witness :
  exec 0 (Do (OpTrigger 0))
    (mk_world [mk_stack_callback VUndefined false false true [VFunction 0] true None None]
              [Native] [] [])
  = Some (VBool false,
          mk_world [mk_stack_callback VUndefined false false true [VFunction 0] true
                      None None] [Native] [] [], []).
Proof.
  eapply (trigger_while_triggered 0 _ 0%nat); reflexivity.
Defined.

(** X2. [stop()] on a waiting queue returns [false] and does nothing;
    in particular the stop listeners do not run. *)
Theorem stop_while_waiting fuel w q s :
  heap w !! q = Some s ->
  triggered s = false ->
  exec fuel (Do (OpStop q)) w = Some (VBool false, w, []).
Proof.
  intros Hq Ht. simpl. unfold stop.
  rewrite (and_then_pure _ _ _ _ _ (read_some _ _ _ _ Hq)), Ht. reflexivity.
Qed.

Lemma stop_while_waiting_witness :
  exec 0 (Do (OpStop 0))
    (mk_world [mk_stack_callback VUndefined false false false [] false None (Some 1%nat);
               mk_stack_callback VUndefined true true false [VFunction 0] false None None]
              [Native] [] [])
  = Some (VBool false,
          mk_world [mk_stack_callback VUndefined false false false [] false None
                      (Some 1%nat);
                    mk_stack_callback VUndefined true true false [VFunction 0] false
                      None None]
                   [Native] [] [], []).
Proof.
  eapply (stop_while_waiting 0 _ 0%nat); reflexivity.
Defined.

(** ** empty *)

Lemma splice_all l : splice l 0 (length l) = [].
Proof.
  unfold splice. change (0 <? 0) with false. cbv iota.
  replace (Z.to_nat (Z.min 0 _)) with 0%nat by lia.
  simpl. apply drop_all.
Qed.

(** X3. [empty()] takes every entry off the stack without invoking any,
    also on a triggered queue, and leaves the state of the queue and its
    listeners as they are. *)
Theorem empty_clears_the_stack fuel w q s :
  heap w !! q = Some s ->
  exec fuel (Do (OpEmpty q)) w
  = Some (VUndefined, with_queue q (set_stack [] s) w, []).
Proof.
  intros Hq. simpl. unfold empty.
  rewrite (and_then_pure _ _ _ _ _ (read_some _ _ _ _ Hq)).
  rewrite (and_then_pure _ _ _ _ _ (modify_some _ _ _ _ Hq)).
  rewrite splice_all. reflexivity.
Qed.

Lemma empty_clears_the_stack_witness :
  exec 0 (Do (OpEmpty 0))
    (mk_world [mk_stack_callback VUndefined false false true [VFunction 0; VNull] true
                 None None] [Native] [] [])
  = Some (VUndefined,
          mk_world [mk_stack_callback VUndefined false false true [] true None None]
                   [Native] [] [], []).
Proof.
  exact (empty_clears_the_stack 0
           (mk_world [mk_stack_callback VUndefined false false true [VFunction 0; VNull]
                        true None None] [Native] [] [])
           0%nat
           (mk_stack_callback VUndefined false false true [VFunction 0; VNull] true
              None None)
           eq_refl).
Defined.

(** ** remove, when the callback is there *)

(** X4. [remove(callback)] takes the first entry identical to
    [callback] off the stack and nothing else: the entries before it and
    after it, later copies of [callback] included, stay in order; no
    item is invoked. *)
Theorem remove_takes_first_occurrence fuel w q s x before after :
  heap w !! q = Some s ->
  stack s = before ++ x :: after ->
  x ∉ before ->
  exec fuel (Do (OpRemove q x)) w
  = Some (VUndefined, with_queue q (set_stack (before ++ after) s) w, []).
Proof.
  intros Hq Hs Hx. simpl. apply (remove_present q x w s before after Hq Hs Hx).
Qed.

Lemma remove_takes_first_occurrence_witness :
  exec 0 (Do (OpRemove 0 (VFunction 1)))
    (mk_world [mk_stack_callback VUndefined false false false
                 [VFunction 0; VFunction 1; VFunction 2; VFunction 1] false None None]
              [Native; Native; Native] [] [])
  = Some (VUndefined,
          mk_world [mk_stack_callback VUndefined false false false
                      [VFunction 0; VFunction 2; VFunction 1] false None None]
                   [Native; Native; Native] [] [], []).
Proof.
  refine (remove_takes_first_occurrence 0
            (mk_world [mk_stack_callback VUndefined false false false
                         [VFunction 0; VFunction 1; VFunction 2; VFunction 1]
                         false None None]
                      [Native; Native; Native] [] [])
            0%nat _ (VFunction 1) [VFunction 0] [VFunction 2; VFunction 1]
            eq_refl eq_refl _).
  intros H. apply list_elem_of_singleton in H. discriminate H.
Defined.

(** ** The prepopulated stack *)

Lemma flatten_Group l : flatten (Group l) = flat_map flatten l.
Proof.
  induction l as [|x l IH]; [reflexivity|].
  simpl. simpl in IH. rewrite IH. reflexivity.
Qed.

Lemma perfect_prepopulated_stack_flatten p :
  perfect_prepopulated_stack p = compact (flatten p).
Proof.
  unfold perfect_prepopulated_stack. rewrite flatten_Group. simpl.
  rewrite app_nil_r. reflexivity.
Qed.

Lemma compact_flat_array items :
  Forall (fun x => truthy x = true) items ->
  List.filter truthy (flatten (Group (map Item items))) = items.
Proof.
  intros Hall. rewrite flatten_Group.
  induction Hall as [|x l Hx _ IH]; [reflexivity|].
  simpl. rewrite Hx. f_equal. exact IH.
Qed.

(** X5. Whatever the [prepopulated_stack] argument, however nested, the
    constructor puts on the stack its truthy leaves, in order, and
    nothing else: the new queue is waiting, holds no falsy entry, and a
    flat array of truthy items is taken as it is. *)
Theorem constructor_compacts_the_stack fuel w b p :
  exists w',
    exec fuel (Do (NewBind b p)) w = Some (VStack (length (heap w)), w', [])
    /\ stack_of w' (length (heap w)) = Some (List.filter truthy (flatten p))
    /\ triggered_of w' (length (heap w)) = Some false
    /\ Forall (fun x => truthy x = true) (List.filter truthy (flatten p))
    /\ (forall items, Forall (fun x => truthy x = true) items ->
          List.filter truthy (flatten (Group (map Item items))) = items).
Proof.
  eexists. split; [reflexivity|].
  split.
  { unfold stack_of. simpl. rewrite list_lookup_middle by reflexivity. simpl.
    rewrite perfect_prepopulated_stack_flatten. reflexivity. }
  split.
  { unfold triggered_of. simpl. rewrite list_lookup_middle by reflexivity.
    reflexivity. }
  split.
  - apply Forall_forall. intros x Hx.
    apply list_elem_of_In, filter_In in Hx. apply Hx.
  - apply compact_flat_array.
Qed.

Lemma simple_leaves_items F p :
  simple_leaves F p -> Forall (simple_item F) (List.filter truthy (flatten p)).
Proof.
  unfold simple_leaves. rewrite !Forall_forall. intros H x Hx.
  apply list_elem_of_In, filter_In in Hx as [Hin Ht].
  split; [exact Ht|]. apply (H x); [apply list_elem_of_In, Hin|exact Ht].
Qed.

(** X6. A queue created with a prepopulated stack and triggered: every
    function of the argument is invoked, in order, with the bind of the
    queue, whatever falsy entries and nesting the argument has; the
    queue ends triggered with an empty stack. *)
Theorem prepopulated_stack_is_drained n w b p :
  simple_leaves (funs w) p ->
  exists w',
    exec_all (S (S (length (flatten p) + n)))
      [Do (NewBind b p); Do (OpTrigger (length (heap w)))] w
    = Some ([VStack (length (heap w)); VUndefined], w',
            invoked_by (if truthy b then b else VUndefined)
              (List.filter truthy (flatten p)))
    /\ stack_of w' (length (heap w)) = Some []
    /\ triggered_of w' (length (heap w)) = Some true.
Proof.
  intros Hp.
  set (items := List.filter truthy (flatten p)).
  set (s := mk_stack_callback (if truthy b then b else VUndefined) false false false
              items false None None).
  set (w1 := set_heap (heap w ++ [s]) w).
  assert (Hq : heap w1 !! length (heap w) = Some s)
    by (apply list_lookup_middle; reflexivity).
  assert (Hlen : (length items <= length (flatten p))%nat)
    by apply List.filter_length_le.
  assert (E1 : forall fuel, exec fuel (Do (NewBind b p)) w
                            = Some (VStack (length (heap w)), w1, [])).
  { intros fuel. simpl. unfold new_with_bind, alloc_queue, and_then, get_world,
      put_world, ret. simpl. rewrite perfect_prepopulated_stack_flatten.
    reflexivity. }
  pose proof (trigger_plain_drains (length (flatten p) - length items + n) w1
                (length (heap w)) s Hq eq_refl eq_refl eq_refl eq_refl
                (simple_leaves_items _ _ Hp)) as E2.
  simpl stack in E2.
  replace (S (S (length items + (length (flatten p) - length items + n))))
    with (S (S (length (flatten p) + n))) in E2 by lia.
  eexists. split.
  - cbn [exec_all]. rewrite (and_then_step _ _ _ _ _ _ (E1 _)), and_then_assoc.
    rewrite (and_then_step _ _ _ _ _ _ E2). simpl.
    rewrite !app_nil_r. reflexivity.
  - unfold stack_of, triggered_of, with_queue, set_heap. simpl.
    rewrite list_lookup_insert_eq
      by (rewrite length_app; simpl; lia).
    split; reflexivity.
Qed.

Lemma prepopulated_stack_is_drained_witness :
  exists w',
    exec_all 6
      [Do (NewBind (VStr "ctx")
             (Group [Item (VFunction 0); Item VNull;
                     Group [Item VUndefined; Item (VFunction 1)]]));
       Do (OpTrigger 0)]
      (mk_world [] [Native; Native] [] [])
    = Some ([VStack 0; VUndefined], w',
            [Invoked 0 (VStr "ctx"); Invoked 1 (VStr "ctx")]).
Proof.
  assert (H : simple_leaves [Native; Native]
                (Group [Item (VFunction 0); Item VNull;
                        Group [Item VUndefined; Item (VFunction 1)]])).
  { unfold simple_leaves. simpl.
    repeat constructor; intros Ht f Hf; inversion Hf; subst; try discriminate;
      reflexivity. }
  destruct (prepopulated_stack_is_drained 0 (mk_world [] [Native; Native] [] [])
              (VStr "ctx") _ H) as (w' & E & _).
  exists w'. exact E.
Defined.

(** ** push on a triggered queue *)

Section Pushing.

Local Opaque and_then read modify alloc_queue defer get_fun emit W NF run.


End Pushing.



(** ** The edge listeners *)

(** X8. [addTriggerEventListener] and [addStopEventListener] ignore a
    responder that is not a function: they return [false], create no
    listener queue and change nothing. *)
Theorem listener_must_be_a_function fuel w q responder :
  is_function responder = false ->
  exec fuel (Do (OpAddTriggerEventListener q responder)) w = Some (VBool false, w, [])
  /\ exec fuel (Do (OpAddStopEventListener q responder)) w = Some (VBool false, w, []).
Proof.
  intros H. simpl. unfold addTriggerEventListener, addStopEventListener.
  rewrite H. split; reflexivity.
Qed.

Lemma listener_must_be_a_function_witness :
  exec 0 (Do (OpAddTriggerEventListener 0 VUndefined)) empty_world
  = Some (VBool false, empty_world, []).
Proof.
  exact (proj1 (listener_must_be_a_function 0 empty_world 0 VUndefined eq_refl)).
Defined.

(** X9. The listener queue of a kind is created once: when a queue
    already has its trigger listener queue, not yet triggered,
    registering a further listener appends it to that queue; no queue
    is created, nothing is deferred and nothing is invoked. *)
Theorem listener_queue_is_reused fuel w q s c sc f :
  heap w !! q = Some s ->
  trigger_event_listener s = Some c ->
  heap w !! c = Some sc ->
  watching sc = false ->
  exec fuel (Do (OpAddTriggerEventListener q (VFunction f))) w
  = Some (VUndefined, with_queue c (array_push [VFunction f] sc) w, []).
Proof.
  intros Hq Hl Hc Hw. simpl. unfold addTriggerEventListener. cbn [is_function negb].
  rewrite (and_then_pure _ _ _ _ _ (read_some _ _ _ _ Hq)), Hl.
  rewrite and_then_ret.
  rewrite (and_then_pure _ _ _ _ _ (push_not_watching _ c _ w sc Hc Hw)).
  reflexivity.
Qed.

Lemma listener_queue_is_reused_witness :
  exec 0 (Do (OpAddTriggerEventListener 0 (VFunction 1)))
    (mk_world [mk_stack_callback VUndefined false false false [] false (Some 1%nat) None;
               mk_stack_callback VUndefined true true false [VFunction 0] false None None]
              [Native; Native] [] [])
  = Some (VUndefined,
          mk_world [mk_stack_callback VUndefined false false false [] false
                      (Some 1%nat) None;
                    mk_stack_callback VUndefined true true false
                      [VFunction 0; VFunction 1] false None None]
                   [Native; Native] [] [], []).
Proof.
  exact (listener_queue_is_reused 0
           (mk_world [mk_stack_callback VUndefined false false false [] false
                        (Some 1%nat) None;
                      mk_stack_callback VUndefined true true false [VFunction 0] false
                        None None]
                     [Native; Native] [] [])
           0%nat _ 1%nat _ 1%nat eq_refl eq_refl eq_refl eq_refl).
Defined.

(** ** What no operation changes *)

Lemma later_queue_refl s : later_queue s s.
Proof. repeat split; auto. Qed.

Lemma later_queue_trans s1 s2 s3 :
  later_queue s1 s2 -> later_queue s2 s3 -> later_queue s1 s3.
Proof.
  intros (A1 & A2 & A3 & A4) (B1 & B2 & B3 & B4).
  repeat split; [congruence|congruence|auto|auto].
Qed.

Lemma later_world_refl w : later_world w w.
Proof. intros q s H. exists s. split; [exact H|apply later_queue_refl]. Qed.

Lemma later_world_trans w1 w2 w3 :
  later_world w1 w2 -> later_world w2 w3 -> later_world w1 w3.
Proof.
  intros H12 H23 q s Hq.
  destruct (H12 q s Hq) as (s2 & Hq2 & L12).
  destruct (H23 q s2 Hq2) as (s3 & Hq3 & L23).
  exists s3. split; [exact Hq3|]. eapply later_queue_trans; eassumption.
Qed.

Lemma later_world_heap w h :
  (forall q s, heap w !! q = Some s -> exists s', h !! q = Some s' /\ later_queue s s') ->
  later_world w (set_heap h w).
Proof. intros H. exact H. Qed.

Section Keeping.

Lemma Keeps_ret {A} (a : A) : Keeps (ret a).
Proof. intros w a' w' t H. injection H as _ <- _. apply later_world_refl. Qed.

Lemma Keeps_fail {A} : Keeps (@fail A).
Proof. intros w a w' t H. discriminate H. Qed.

Lemma Keeps_bind {A B} (m : M A) (k : A -> M B) :
  Keeps m -> (forall a, Keeps (k a)) -> Keeps (and_then m k).
Proof.
  intros Hm Hk w b w' t H. unfold and_then in H.
  destruct (m w) as [[[a w1] t1]|] eqn:E1; [|discriminate].
  destruct (k a w1) as [[[b' w2] t2]|] eqn:E2; [|discriminate].
  injection H as _ <- _.
  eapply later_world_trans; [eapply Hm, E1|eapply Hk, E2].
Qed.

Lemma Keeps_emit e : Keeps (emit e).
Proof. intros w a w' t H. injection H as _ <- _. apply later_world_refl. Qed.

Lemma Keeps_when b m : Keeps m -> Keeps (when b m).
Proof. intros H. destruct b; [exact H|apply Keeps_ret]. Qed.

Lemma Keeps_read {A} q (field : stack_callback -> A) : Keeps (read q field).
Proof.
  intros w a w' t H. unfold read, get_queue, and_then, get_world in H.
  destruct (heap w !! q); simpl in H; [|discriminate].
  injection H as _ <- _. apply later_world_refl.
Qed.

Lemma Keeps_modify q f : stable f -> Keeps (modify q f).
Proof.
  intros Hf w a w' t H.
  destruct (heap w !! q) as [s|] eqn:Hq.
  - rewrite (modify_some _ _ _ _ Hq) in H. injection H as _ <- _.
    intros q' s' Hq'. simpl.
    destruct (decide (q = q')) as [<-|Hne].
    + exists (f s). rewrite list_lookup_insert_eq by (eapply lookup_lt_Some, Hq).
      split; [reflexivity|].
      assert (s' = s) by congruence. subst s'.
      destruct (Hf s) as (A1 & A2 & A3 & A4).
      repeat split; [exact A1|exact A2|intros c Hc; congruence|intros c Hc; congruence].
    + exists s'. rewrite list_lookup_insert_ne by exact Hne.
      split; [exact Hq'|apply later_queue_refl].
  - rewrite (modify_none _ _ _ Hq) in H. discriminate H.
Qed.

(** Setting a listener queue where there is none. *)
Lemma Keeps_set_listener q c k :
  k = set_trigger_event_listener c \/ k = set_stop_event_listener c ->
  forall w a w' t s,
    heap w !! q = Some s ->
    (k = set_trigger_event_listener c -> trigger_event_listener s = None) ->
    (k = set_stop_event_listener c -> stop_event_listener s = None) ->
    modify q k w = Some (a, w', t) -> later_world w w'.
Proof.
  intros Hk w a w' t s Hq Ht Hs H.
  rewrite (modify_some _ _ _ _ Hq) in H. injection H as _ <- _.
  intros q' s' Hq'. simpl.
  destruct (decide (q = q')) as [<-|Hne].
  - exists (k s). rewrite list_lookup_insert_eq by (eapply lookup_lt_Some, Hq).
    split; [reflexivity|].
    assert (s' = s) by congruence. subst s'.
    destruct Hk as [-> | ->].
    + specialize (Ht eq_refl). repeat split; simpl; try reflexivity.
      * intros c' Hc'. congruence.
      * auto.
    + specialize (Hs eq_refl). repeat split; simpl; try reflexivity.
      * auto.
      * intros c' Hc'. congruence.
  - exists s'. rewrite list_lookup_insert_ne by exact Hne.
    split; [exact Hq'|apply later_queue_refl].
Qed.

Lemma Keeps_alloc_queue s : Keeps (alloc_queue s).
Proof.
  intros w a w' t H. injection H as _ <- _.
  intros q s' Hq. exists s'. split; [|apply later_queue_refl].
  simpl. apply lookup_app_l_Some, Hq.
Qed.

(** A computation that does not touch the heap. *)
Lemma Keeps_off_heap {A} (m : M A) :
  (forall w a w' t, m w = Some (a, w', t) -> heap w' = heap w) -> Keeps m.
Proof.
  intros Hm w a w' t H q s Hq. exists s. rewrite (Hm _ _ _ _ H).
  split; [exact Hq|apply later_queue_refl].
Qed.

Lemma Keeps_alloc_fun f : Keeps (alloc_fun f).
Proof. apply Keeps_off_heap. intros w a w' t H. injection H as _ <- _. reflexivity. Qed.

Lemma Keeps_alloc_barrier l : Keeps (alloc_barrier l).
Proof. apply Keeps_off_heap. intros w a w' t H. injection H as _ <- _. reflexivity. Qed.

Lemma Keeps_defer d : Keeps (defer d).
Proof. apply Keeps_off_heap. intros w a w' t H. injection H as _ <- _. reflexivity. Qed.

Lemma Keeps_take_deferred : Keeps take_deferred.
Proof. apply Keeps_off_heap. intros w a w' t H. injection H as _ <- _. reflexivity. Qed.

Lemma Keeps_get_fun f : Keeps (get_fun f).
Proof.
  apply Keeps_off_heap. intros w a w' t H.
  unfold get_fun, and_then, get_world in H.
  destruct (funs w !! f); simpl in H; [|discriminate].
  injection H as _ <- _. reflexivity.
Qed.

Lemma Keeps_set_fun f body : Keeps (set_fun f body).
Proof. apply Keeps_off_heap. intros w a w' t H. injection H as _ <- _. reflexivity. Qed.

Lemma Keeps_get_barrier b : Keeps (get_barrier b).
Proof.
  apply Keeps_off_heap. intros w a w' t H.
  unfold get_barrier, and_then, get_world in H.
  destruct (barriers w !! b); simpl in H; [|discriminate].
  injection H as _ <- _. reflexivity.
Qed.

Lemma Keeps_set_entry_triggered b i v : Keeps (set_entry_triggered b i v).
Proof.
  apply Keeps_off_heap. intros w a w' t H.
  unfold set_entry_triggered, get_barrier, and_then, get_world in H. simpl in H.
  destruct (barriers w !! b) as [stacks|]; simpl in H; [|discriminate].
  destruct (stacks !! i); simpl in H; [|discriminate].
  injection H as _ <- _. reflexivity.
Qed.

Ltac keep_step :=
  first
    [ apply Keeps_ret
    | apply Keeps_fail
    | apply Keeps_emit
    | apply Keeps_read
    | apply Keeps_modify; intros ?; repeat split; reflexivity
    | apply Keeps_alloc_queue
    | apply Keeps_alloc_fun
    | apply Keeps_alloc_barrier
    | apply Keeps_defer
    | apply Keeps_take_deferred
    | apply Keeps_get_fun
    | apply Keeps_set_fun
    | apply Keeps_get_barrier
    | apply Keeps_set_entry_triggered
    | assumption
    | match goal with H : context [Keeps] |- _ => apply H end
    | match goal with
      | |- Keeps (when _ _) => apply Keeps_when
      | |- Keeps (and_then _ _) => apply Keeps_bind; [|intros ?]
      | |- Keeps (if ?b then _ else _) => destruct b
      | |- Keeps (match ?x with _ => _ end) => destruct x
      end ].

Ltac keep := repeat keep_step.

Lemma Keeps_new_with_options o : Keeps (new_with_options o).
Proof. unfold new_with_options. keep. Qed.

Lemma Keeps_new_with_bind b p : Keeps (new_with_bind b p).
Proof. unfold new_with_bind. keep. Qed.

Lemma Keeps_remove q x : Keeps (remove q x).
Proof. unfold remove. keep. Qed.

Lemma Keeps_empty q : Keeps (empty q).
Proof. unfold empty. keep. Qed.

Lemma Keeps_state q : Keeps (state q).
Proof. unfold state. keep. Qed.

Variable rec : call -> M value.
Hypothesis Hrec : forall c, Keeps (rec c).

Lemma Keeps_stop q : Keeps (stop rec q).
Proof. unfold stop. keep. Qed.

Lemma Keeps_watch_stack q : Keeps (watch_stack q).
Proof. unfold watch_stack. keep. Qed.

Lemma Keeps_dequeue q : Keeps (dequeue rec q).
Proof. pose proof Keeps_stop. unfold dequeue. keep. Qed.

Lemma Keeps_stack_push q l : Keeps (stack_push rec q l).
Proof. pose proof Keeps_dequeue. unfold stack_push. keep. Qed.

Lemma Keeps_push q l : Keeps (push rec q l).
Proof. pose proof Keeps_stack_push. unfold push. keep. Qed.

Lemma Keeps_trigger q : Keeps (trigger rec q).
Proof. pose proof Keeps_dequeue. pose proof Keeps_watch_stack. unfold trigger. keep. Qed.

Lemma Keeps_dequeue_loop q : Keeps (dequeue_loop rec q).
Proof. unfold dequeue_loop. keep. Qed.


Lemma and_then_inv {A B} (m : M A) (k : A -> M B) w b w' t :
  and_then m k w = Some (b, w', t) ->
  exists a w1 t1 t2,
    m w = Some (a, w1, t1) /\ k a w1 = Some (b, w', t2) /\ t = t1 ++ t2.
Proof.
  unfold and_then. intros H.
  destruct (m w) as [[[a w1] t1]|]; [|discriminate].
  destruct (k a w1) as [[[b' w2] t2]|] eqn:E; [|discriminate].
  injection H as <- <- <-. exists a, w1, t1, t2.
  split; [reflexivity|]. split; [exact E|reflexivity].
Qed.

(** Creating the listener queue of [q], when [q] has none of that kind. *)
Lemma Keeps_create_listener q b set a w w' t s :
  set = set_trigger_event_listener \/ set = set_stop_event_listener ->
  heap w !! q = Some s ->
  (set = set_trigger_event_listener -> trigger_event_listener s = None) ->
  (set = set_stop_event_listener -> stop_event_listener s = None) ->
  and_then (new_with_options (mk_options b true true (Item VUndefined)
                                VUndefined VUndefined))
    (fun c => and_then (modify q (set c)) (fun _ => ret c)) w
  = Some (a, w', t) ->
  later_world w w'.
Proof.
  intros Hset Hq Ht Hs H.
  apply and_then_inv in H as (c & w1 & t1 & t2 & E1 & E2 & _).
  apply and_then_inv in E2 as ([] & w2 & t3 & t4 & E2 & E3 & _).
  injection E3 as _ <- _.
  pose proof (Keeps_new_with_options _ _ _ _ _ E1) as L1.
  eapply later_world_trans; [exact L1|].
  assert (Hq1 : heap w1 !! q = Some s).
  { injection E1 as _ <- _. simpl. apply lookup_app_l_Some, Hq. }
  eapply (Keeps_set_listener q c (set c)); [| exact Hq1 | | | exact E2].
  - destruct Hset as [-> | ->]; auto.
  - intros E. apply Ht. destruct Hset as [-> | ->]; [reflexivity|discriminate (f_equal (fun g => trigger_event_listener (g (mk_stack_callback VUndefined false false false [] false None None))) E)].
  - intros E. apply Hs. destruct Hset as [-> | ->]; [discriminate (f_equal (fun g => trigger_event_listener (g (mk_stack_callback VUndefined false false false [] false None None))) E)|reflexivity].
Qed.

Lemma Keeps_addTriggerEventListener q r : Keeps (addTriggerEventListener rec q r).
Proof.
  pose proof Keeps_push as Hpush.
  unfold addTriggerEventListener.
  destruct (negb (is_function r)); [apply Keeps_ret|].
  intros w a w' t H.
  apply and_then_inv in H as (l & w1 & t1 & t2 & E1 & E2 & _).
  destruct (heap w !! q) as [s|] eqn:Hq;
    [rewrite (read_some _ _ _ _ Hq) in E1|rewrite (read_none _ _ _ Hq) in E1; discriminate].
  injection E1 as <- <- _.
  apply and_then_inv in E2 as (c & w2 & t3 & t4 & E2 & E3 & _).
  assert (L : later_world w w2).
  { destruct (trigger_event_listener s) as [c0|] eqn:Hl.
    - injection E2 as _ <- _. apply later_world_refl.
    - apply and_then_inv in E2 as (b & w3 & t5 & t6 & E2 & E4 & _).
      rewrite (read_some _ _ _ _ Hq) in E2. injection E2 as <- <- _.
      eapply (Keeps_create_listener q (bind s) set_trigger_event_listener);
        [left; reflexivity|exact Hq|intros _; exact Hl|intros E|exact E4].
      discriminate (f_equal (fun g => trigger_event_listener
                               (g 0%nat (mk_stack_callback VUndefined false false false
                                           [] false None None))) E). }
  eapply later_world_trans; [exact L|].
  revert E3. apply (Keeps_bind (push rec c [r]) (fun _ => ret VUndefined)).
  - apply Hpush.
  - intros _. apply Keeps_ret.
Qed.

Lemma Keeps_addStopEventListener q r : Keeps (addStopEventListener rec q r).
Proof.
  pose proof Keeps_push as Hpush.
  unfold addStopEventListener.
  destruct (negb (is_function r)); [apply Keeps_ret|].
  intros w a w' t H.
  apply and_then_inv in H as (l & w1 & t1 & t2 & E1 & E2 & _).
  destruct (heap w !! q) as [s|] eqn:Hq;
    [rewrite (read_some _ _ _ _ Hq) in E1|rewrite (read_none _ _ _ Hq) in E1; discriminate].
  injection E1 as <- <- _.
  apply and_then_inv in E2 as (c & w2 & t3 & t4 & E2 & E3 & _).
  assert (L : later_world w w2).
  { destruct (stop_event_listener s) as [c0|] eqn:Hl.
    - injection E2 as _ <- _. apply later_world_refl.
    - apply and_then_inv in E2 as (b & w3 & t5 & t6 & E2 & E4 & _).
      rewrite (read_some _ _ _ _ Hq) in E2. injection E2 as <- <- _.
      eapply (Keeps_create_listener q (bind s) set_stop_event_listener);
        [right; reflexivity|exact Hq|intros E|intros _; exact Hl|exact E4].
      discriminate (f_equal (fun g => trigger_event_listener
                               (g 0%nat (mk_stack_callback VUndefined false false false
                                           [] false None None))) E). }
  eapply later_world_trans; [exact L|].
  revert E3. apply (Keeps_bind (push rec c [r]) (fun _ => ret VUndefined)).
  - apply Hpush.
  - intros _. apply Keeps_ret.
Qed.

Lemma Keeps_run_task d : Keeps (run_task rec d).
Proof.
  pose proof Keeps_addTriggerEventListener. pose proof Keeps_addStopEventListener.
  unfold run_task. keep.
Qed.

Lemma Keeps_run_tasks l : Keeps (run_tasks rec l).
Proof. pose proof Keeps_run_task. induction l as [|d l IH]; simpl; keep. Qed.

Lemma Keeps_tick : Keeps (tick rec).
Proof. pose proof Keeps_run_tasks. unfold tick. keep. Qed.

Lemma Keeps_wire_stack b fc i e : Keeps (wire_stack rec b fc i e).
Proof.
  pose proof Keeps_push.
  pose proof Keeps_addTriggerEventListener. pose proof Keeps_addStopEventListener.
  unfold wire_stack. keep.
Qed.

Lemma Keeps_wire_stacks b fc i l : Keeps (wire_stacks rec b fc i l).
Proof.
  pose proof Keeps_wire_stack.
  revert i. induction l as [|e l IH]; intros i; simpl; keep.
Qed.

Lemma Keeps_push_all l : Keeps (push_all rec l).
Proof.
  pose proof Keeps_wire_stacks.
  unfold push_all. destruct (scan_arguments l None []) as [[cb|] st]; keep.
Qed.

Lemma Keeps_exec_op o : Keeps (exec_op rec o).
Proof.
  destruct o; simpl.
  - pose proof Keeps_new_with_options. keep.
  - pose proof Keeps_new_with_bind. keep.
  - keep.
  - apply Keeps_push.
  - apply Keeps_trigger.
  - apply Keeps_stop.
  - apply Keeps_remove.
  - apply Keeps_empty.
  - apply Keeps_state.
  - apply Keeps_addTriggerEventListener.
  - apply Keeps_addStopEventListener.
  - apply Keeps_push_all.
Qed.

Lemma Keeps_run_body body : Keeps (run_body rec body).
Proof. pose proof Keeps_exec_op. induction body as [|o body IH]; simpl; keep. Qed.

Lemma Keeps_apply f this : Keeps (apply rec f this).
Proof. pose proof Keeps_run_body. unfold apply. keep. Qed.

End Keeping.

Lemma Keeps_run fuel : forall c, Keeps (run fuel c).
Proof.
  induction fuel as [|n IH]; intros c; simpl.
  - apply Keeps_fail.
  - destruct c.
    + apply Keeps_trigger, IH.
    + apply Keeps_dequeue_loop, IH.
    + apply Keeps_apply, IH.
Qed.

Lemma Keeps_exec fuel a : Keeps (exec fuel a).
Proof.
  pose proof (Keeps_run fuel) as Hrun.
  destruct a; simpl.
  - apply Keeps_exec_op, Hrun.
  - apply Keeps_bind; [apply Keeps_alloc_fun|intros ?; apply Keeps_ret].
  - apply Keeps_tick, Hrun.
Qed.

(** X10. Whatever a script does, callbacks that use the library
    included, a queue that exists stays: it keeps its reference, its
    [refire] and [requeue] flags, and any listener queue it already
    has. *)
Theorem queues_keep_flags_and_listeners fuel script w vs w' t :
  exec_all fuel script w = Some (vs, w', t) ->
  later_world w w'.
Proof.
  revert w vs w' t.
  induction script as [|a script IH]; intros w vs w' t H.
  - injection H as _ <- _. apply later_world_refl.
  - cbn [exec_all] in H.
    apply and_then_inv in H as (v & w1 & t1 & t2 & E1 & E2 & _).
    apply and_then_inv in E2 as (vs' & w2 & t3 & t4 & E2 & E3 & _).
    injection E3 as _ <- _.
    eapply later_world_trans; [eapply Keeps_exec, E1|eapply IH, E2].
Qed.

Lemma queues_keep_flags_and_listeners_witness :
  later_world
    (mk_world [mk_stack_callback VUndefined true true false [VFunction 0] false None None]
              [Calls [OpAddStopEventListener 0 (VFunction 1); OpStop 0]; Native] [] [])
    (mk_world [mk_stack_callback VUndefined true true false [VFunction 0] true None
                 (Some 1%nat);
               mk_stack_callback VUndefined true true false [VFunction 1] true None None]
              [Calls [OpAddStopEventListener 0 (VFunction 1); OpStop 0]; Native] []
              [mk_task 1 VUndefined VUndefined]).
Proof.
  eapply (queues_keep_flags_and_listeners 10 [Do (OpTrigger 0)]).
  vm_compute. reflexivity.
Defined.

(** ** The barrier, from its construction on *)

Lemma barrier_invariant_step l w a :
  barrier_invariant l = true ->
  w ∈ l ->
  exists v w' trace,
    exec enough (op_of a) w = Some (v, w', trace)
    /\ (ran_count w + invocations z trace)%nat = ran_count w'
    /\ (invocations z trace <> 0%nat -> all_triggered w' = true)
    /\ w' ∈ l.
Proof.
  unfold barrier_invariant. rewrite forallb_forall.
  intros Hall Hw. apply list_elem_of_In in Hw.
  specialize (Hall w Hw). apply andb_prop in Hall as [_ Hall].
  rewrite forallb_forall in Hall.
  assert (Ha : In a all_activities) by (destruct a as [[]|[]|]; simpl; tauto).
  specialize (Hall a Ha).
  destruct (exec enough (op_of a) w) as [[[v w'] trace]|]; [|discriminate].
  apply andb_prop in Hall as [Hall Hin]. apply andb_prop in Hall as [Hc Ht].
  apply Nat.eqb_eq in Hc. apply bool_decide_eq_true in Hin.
  exists v, w', trace. repeat split; try assumption.
  intros Hne. destruct (Nat.eqb_spec (invocations z trace) 0); [contradiction|].
  exact Ht.
Qed.

Lemma barrier_invariant_state l w :
  barrier_invariant l = true -> w ∈ l -> all_triggered w = true -> once_ran w = true.
Proof.
  unfold barrier_invariant. rewrite forallb_forall.
  intros Hall Hw Ht. apply list_elem_of_In in Hw.
  specialize (Hall w Hw). apply andb_prop in Hall as [Hall _].
  rewrite Ht in Hall. exact Hall.
Qed.

Lemma barrier_invariant_run l :
  barrier_invariant l = true ->
  forall (acts : list activity) w,
    w ∈ l ->
    exists vs w' trace,
      exec_all enough (map op_of acts) w = Some (vs, w', trace)
      /\ (ran_count w + invocations z trace)%nat = ran_count w'
      /\ w' ∈ l
      /\ (invocations z trace <> 0%nat ->
          exists acts1 acts2 vs1 w1 t1,
            acts = acts1 ++ acts2
            /\ exec_all enough (map op_of acts1) w = Some (vs1, w1, t1)
            /\ all_triggered w1 = true).
Proof.
  intros Hl acts.
  induction acts as [|a acts IH]; intros w Hw.
  - exists [], w, [].
    split; [reflexivity|]. split; [apply Nat.add_0_r|]. split; [exact Hw|].
    intros H. exfalso. apply H. reflexivity.
  - destruct (barrier_invariant_step l w a Hl Hw) as (v & w1 & e1 & Hstep & Hc1 & Ht1 & Hw1).
    destruct (IH w1 Hw1) as (vs & w2 & e2 & Hrun & Hc2 & Hw2 & Hp2).
    exists (v :: vs), w2, (e1 ++ e2 ++ []).
    assert (Hrun' : exec_all enough (map op_of (a :: acts)) w
                    = Some (v :: vs, w2, e1 ++ e2 ++ [])).
    { simpl map. cbn [exec_all]. unfold and_then at 1. rewrite Hstep.
      unfold and_then at 1. rewrite Hrun. reflexivity. }
    split; [exact Hrun'|]. rewrite app_nil_r, invocations_app.
    split; [lia|]. split; [exact Hw2|].
    intros Hne.
    destruct (Nat.eq_dec (invocations z e1) 0%nat) as [E1|N1].
    + assert (N2 : invocations z e2 <> 0%nat) by lia.
      destruct (Hp2 N2) as (acts1 & acts2 & vs1 & w3 & t1 & -> & Hr1 & Ht).
      exists (a :: acts1), acts2, (v :: vs1), w3, (e1 ++ t1 ++ []).
      split; [reflexivity|]. split; [|exact Ht].
      simpl map. cbn [exec_all]. unfold and_then at 1. rewrite Hstep.
      unfold and_then at 1. rewrite Hr1. reflexivity.
    + exists [a], acts, [v], w1, (e1 ++ [] ++ []).
      split; [reflexivity|]. split; [|exact (Ht1 N1)].
      simpl map. cbn [exec_all]. unfold and_then at 1. rewrite Hstep.
      reflexivity.
Qed.

Lemma explore_keeps n : forall seen w, w ∈ seen -> w ∈ explore n seen.
Proof.
  induction n as [|n IH]; intros seen w H; simpl; [exact H|].
  apply IH. apply elem_of_remove_dups, elem_of_app. left. exact H.
Qed.

(** X11. The barrier of the example [push_all(a, b, c, z)], from its
    construction on: whatever sequence of [trigger()] and [stop()] calls
    on the three queues follows, with the deferred tasks run at any
    point, [z] is invoked at most once; it has been invoked whenever
    the three queues are all triggered; and when it has been invoked,
    there was a moment at which the three were all triggered. *)
Theorem barrier_fires_iff_all_triggered :
  exists vs0 w0,
    exec_all enough barrier_example empty_world = Some (vs0, w0, [])
    /\ forall acts : list activity,
         exists vs w' trace,
           exec_all enough (map op_of acts) w0 = Some (vs, w', trace)
           /\ (invocations z trace <= 1)%nat
           /\ (all_triggered w' = true -> invocations z trace = 1%nat)
           /\ (invocations z trace = 1%nat ->
               exists acts1 acts2 vs1 w1 t1,
                 acts = acts1 ++ acts2
                 /\ exec_all enough (map op_of acts1) w0 = Some (vs1, w1, t1)
                 /\ all_triggered w1 = true).
Proof.
  do 2 eexists. split; [vm_compute; reflexivity|].
  intros acts.
  match goal with
  | |- context [exec_all _ _ ?w] =>
      assert (Hl : barrier_invariant (explore 10 [w]) = true)
        by (vm_compute; reflexivity);
      assert (Hw : w ∈ explore 10 [w])
        by (apply explore_keeps, list_elem_of_singleton; reflexivity);
      assert (H0 : ran_count w = 0%nat) by reflexivity;
      destruct (barrier_invariant_run _ Hl acts w Hw)
        as (vs & w' & trace & Hrun & Hc & Hw' & Hp)
  end.
  exists vs, w', trace. split; [exact Hrun|].
  rewrite H0 in Hc. simpl in Hc.
  split; [|split].
  - rewrite Hc. unfold ran_count. destruct (once_ran w'); lia.
  - intros Ht. rewrite Hc. unfold ran_count.
    rewrite (barrier_invariant_state _ _ Hl Hw' Ht). reflexivity.
  - intros H1. apply Hp. lia.
Qed.

(** X12. [push_all] catches the queues that are already triggered when
    it is called: in the example, with any of [a], [b], [c] triggered
    beforehand, [z] is invoked during [push_all] itself exactly when
    all three were; otherwise it is invoked, once, when the remaining
    queues have been triggered. *)
Theorem push_all_catches_triggered_queues ta tb tc :
  exists vs w t,
    exec_all enough (late_barrier ta tb tc) empty_world = Some (vs, w, t)
    /\ invocations z t = (if ta && tb && tc then 1 else 0)%nat
    /\ exists vs' w' t',
         exec_all enough (triggers (negb ta) (negb tb) (negb tc)) w = Some (vs', w', t')
         /\ invocations z (t ++ t') = 1%nat.
Proof.
  destruct ta, tb, tc;
    (do 3 eexists; split; [vm_compute; reflexivity|]; split; [reflexivity|];
     do 3 eexists; split; [vm_compute; reflexivity|]; reflexivity).
Qed.

(** X13. [push_all] given a callback but no queue: the callback is
    wrapped and never invoked, although an empty set of queues is
    vacuously all triggered; no queue is touched and nothing is
    logged. *)
Theorem push_all_without_queues fuel before f after w :
  Forall (fun a => is_function a = false) after ->
  tracked (before ++ after) = [] ->
  exec fuel (Do (OpPushAll (before ++ VFunction f :: after))) w
  = Some (VUndefined,
          mk_world (heap w) (funs w ++ [Once (VFunction f) false])
                   (barriers w ++ [[]]) (deferred w),
          []).
Proof.
  intros Ha Ht. simpl.
  rewrite (push_all_scan _ _ (VFunction f)) by apply scan_arguments_last, Ha.
  assert (E : tracked (before ++ VFunction f :: after) = []).
  { rewrite tracked_app in Ht |- *. exact Ht. }
  rewrite E. reflexivity.
Qed.

Lemma push_all_without_queues_witness :
  exec 0 (Do (OpPushAll ([VFunction 0; VNum 3] ++ VFunction 1 :: [VNull])))
    (mk_world [] [Native; Native] [] [])
  = Some (VUndefined,
          mk_world [] [Native; Native; Once (VFunction 1) false] [[]] [], []).
Proof.
  refine (push_all_without_queues 0 [VFunction 0; VNum 3] 1 [VNull]
            (mk_world [] [Native; Native] [] []) _ eq_refl).
  repeat constructor.
Defined.

Lemma new_with_options_fresh Hw F B D o :
  new_with_options o (mk_world Hw F B D)
  = Some (length Hw,
          W (Hw ++ [mk_stack_callback (o_bind o) (o_refire o) (o_requeue o) false
                      (perfect_prepopulated_stack (o_prepopulated_stack o))
                      false None None]) F B (length Hw)
            (mk_stack_callback (o_bind o) (o_refire o) (o_requeue o) false
               (perfect_prepopulated_stack (o_prepopulated_stack o)) false None None)
            [] (D ++ [mk_task (length Hw) (o_trigger_callback o) (o_stop_callback o)]),
          []).
Proof.
  unfold W, NF. rewrite app_nil_r.
  rewrite list_insert_id by (apply list_lookup_middle; reflexivity).
  reflexivity.
Qed.

Lemma take_deferred_W H F B q sq L D :
  take_deferred (W H F B q sq L D) = Some (D, W H F B q sq L [], []).
Proof. reflexivity. Qed.

(** ** The callbacks of the options *)

Section Options.

Local Opaque and_then read modify alloc_queue defer get_fun emit W NF run take_deferred.

(** X14.  [src/stack_callback.js], the constructor called with
    options: [trigger_callback] and [stop_callback] are registered by
    the deferred function, not by the constructor.  A [trigger()] that
    comes before it misses them: nothing is invoked, and afterwards the
    trigger callback sits on the stack of the new listener queue.
    After it, [trigger()] invokes the trigger callback bound to
    [options.bind], and first the stop callback when [refire] is on.
    No other deferred function is pending. *)
Theorem option_callbacks_wait_for_the_tick n w b rf rq f h :
  deferred w = [] ->
  funs w !! f = Some Native ->
  funs w !! h = Some Native ->
  let q := length (heap w) in
  let o := mk_options b rf rq (Item VUndefined) (VFunction f) (VFunction h) in
  (exists vs w',
     exec_all (5 + n) [Do (New o); Do (OpTrigger q); Tick] w
     = Some (vs, w', if negb rf && rq then [ConsoleLog RefireMustBeEnabled] else [])
     /\ stack_of w' (S q) = Some [VFunction f])
  /\ (exists vs w',
        exec_all (5 + n) [Do (New o); Tick; Do (OpTrigger q)] w
        = Some (vs, w',
                (if rf then [Invoked h b]
                 else if rq then [ConsoleLog RefireMustBeEnabled] else [])
                ++ [Invoked f b])).
Proof.
  intros Hd Hf Hh q o. destruct w as [Hw F B D]. simpl in Hd, Hf, Hh, q. subst D.
  cbn [exec_all exec exec_op].
  rewrite !and_then_assoc.
  rewrite !(and_then_pure _ _ _ _ _ (new_with_options_fresh Hw F B [] o)).
  rewrite !and_then_ret.
  set (H := Hw ++ _).
  assert (Hlt : (q < length H)%nat) by (unfold H, q; rewrite length_app; simpl; lia).
  assert (Hlen : length H = S q) by (unfold H, q; rewrite length_app; simpl; lia).
  fold q.
  cbn [o_bind o_refire o_requeue o_prepopulated_stack o_trigger_callback
       o_stop_callback o app].
  change (perfect_prepopulated_stack (Item VUndefined)) with (@nil value).
  clearbody H q. clear o.
  destruct rf, rq;
    (split;
     [ do 2 eexists; split;
       [ repeat first [ step
                      | unfold tick; rewrite and_then_assoc;
                        erewrite and_then_pure by apply take_deferred_W;
                        cbn [run_tasks]; unfold run_task ];
         reflexivity
       | unfold stack_of; rewrite <- Hlen, lookup_W_first by exact Hlt; reflexivity ]
     | do 2 eexists;
       repeat first [ step
                    | unfold tick; rewrite and_then_assoc;
                      erewrite and_then_pure by apply take_deferred_W;
                      cbn [run_tasks]; unfold run_task ];
       reflexivity ]).
Qed.

End Options.

Lemma option_callbacks_wait_for_the_tick_witness :
  (exists vs w',
     exec_all 5
       [Do (New (mk_options (VStr "page") true true (Item VUndefined)
                   (VFunction 0) (VFunction 1)));
        Do (OpTrigger 0); Tick] (mk_world [] [Native; Native] [] [])
     = Some (vs, w', [])
     /\ stack_of w' 1 = Some [VFunction 0])
  /\ (exists vs w',
        exec_all 5
          [Do (New (mk_options (VStr "page") true true (Item VUndefined)
                      (VFunction 0) (VFunction 1)));
           Tick; Do (OpTrigger 0)] (mk_world [] [Native; Native] [] [])
        = Some (vs, w', [Invoked 1 (VStr "page")] ++ [Invoked 0 (VStr "page")])).
Proof.
  apply (option_callbacks_wait_for_the_tick 0 (mk_world [] [Native; Native] [] [])
           (VStr "page") true true 0 1); reflexivity.
Defined.

(** ** The switch of [src/facebook.js] *)

Lemma facebook_update_status_step s st r :
  facebook.update_status (run enough) (facebook.mk 0 1 2 st) r (facebook.world_in s)
  = Some (facebook.mk 0 1 2 r,
          facebook.world_in (facebook.next s (facebook.is_connected r)), []).
Proof.
  unfold facebook.update_status, facebook.is_connected.
  destruct (String.eqb r "connected"), s as [|[]|[]|]; vm_compute; reflexivity.
Qed.

Lemma facebook_updates_run rs : forall s st,
  facebook.updates (run enough) (facebook.mk 0 1 2 st) rs (facebook.world_in s)
  = Some (facebook.mk 0 1 2 (default st (last rs)),
          facebook.world_in (facebook.after s rs), []).
Proof.
  induction rs as [|r rs IH]; intros s st; [reflexivity|].
  cbn [facebook.updates].
  rewrite (and_then_step _ _ _ _ _ _ (facebook_update_status_step s st r)).
  rewrite IH. rewrite last_cons. destruct (last rs); reflexivity.
Qed.

Lemma facebook_session_run rs :
  facebook.session enough rs empty_world
  = Some (facebook.mk 0 1 2 (default "unknown"%string (last rs)),
          facebook.world_in (facebook.after facebook.Fresh rs), []).
Proof.
  unfold facebook.session.
  assert (E1 : facebook.create empty_world
               = Some (facebook.mk 0 1 2 "unknown",
                       mk_world (replicate 3 (mk_stack_callback VUndefined false false
                                                false [] false None None)) [] [] [], []))
    by (vm_compute; reflexivity).
  rewrite (and_then_step _ _ _ _ _ _ E1).
  assert (E2 : facebook.init (run enough) (facebook.mk 0 1 2 "unknown")
                 (mk_world (replicate 3 (mk_stack_callback VUndefined false false
                                           false [] false None None)) [] [] [])
               = Some (tt, facebook.world_in facebook.Fresh, []))
    by (vm_compute; reflexivity).
  rewrite (and_then_step _ _ _ _ _ _ E2).
  rewrite facebook_updates_run. reflexivity.
Qed.

Lemma facebook_flags s :
  triggered_of (facebook.world_in s) 1
  = Some (match s with
          | facebook.Fresh => false
          | facebook.Single c | facebook.Switched c => c
          | facebook.Stuck => true
          end)
  /\ triggered_of (facebook.world_in s) 2
     = Some (match s with
             | facebook.Fresh => false
             | facebook.Single c | facebook.Switched c => negb c
             | facebook.Stuck => true
             end).
Proof. destruct s as [|[]|[]|]; split; vm_compute; reflexivity. Qed.

Lemma facebook_after_Stuck rs : facebook.after facebook.Stuck rs = facebook.Stuck.
Proof. induction rs; [reflexivity|exact IHrs]. Qed.

Lemma facebook_after_cons s r rs :
  facebook.after s (r :: rs)
  = facebook.after (facebook.next s (facebook.is_connected r)) rs.
Proof. reflexivity. Qed.

Lemma facebook_changes_cons a b rs :
  facebook.changes (a :: b :: rs)
  = ((if Bool.eqb (facebook.is_connected a) (facebook.is_connected b) then 0 else 1)
     + facebook.changes (b :: rs))%nat.
Proof. reflexivity. Qed.

Lemma facebook_no_change rs : forall a,
  facebook.changes (a :: rs) = 0%nat ->
  facebook.is_connected (default a (last rs)) = facebook.is_connected a.
Proof.
  induction rs as [|b rs IH]; intros a Hc; [reflexivity|].
  rewrite facebook_changes_cons in Hc.
  destruct (Bool.eqb _ _) eqn:E; [|discriminate].
  apply Bool.eqb_prop in E. rewrite E, <- (IH b Hc), last_cons.
  destruct (last rs); reflexivity.
Qed.

Lemma facebook_after_Switched rs : forall a,
  facebook.after (facebook.Switched (facebook.is_connected a)) rs
  = match facebook.changes (a :: rs) with
    | O => facebook.Switched (facebook.is_connected a)
    | _ => facebook.Stuck
    end.
Proof.
  induction rs as [|b rs IH]; intros a; [reflexivity|].
  rewrite facebook_after_cons, facebook_changes_cons. cbn [facebook.next].
  destruct (Bool.eqb _ _) eqn:E.
  - apply Bool.eqb_prop in E. rewrite E. apply IH.
  - apply facebook_after_Stuck.
Qed.

Lemma facebook_after_Single rs : forall a,
  facebook.after (facebook.Single (facebook.is_connected a)) rs
  = match facebook.changes (a :: rs) with
    | 0%nat => facebook.Single (facebook.is_connected a)
    | 1%nat => facebook.Switched (facebook.is_connected (default a (last rs)))
    | _ => facebook.Stuck
    end.
Proof.
  induction rs as [|b rs IH]; intros a; [reflexivity|].
  rewrite facebook_after_cons, facebook_changes_cons. cbn [facebook.next].
  destruct (Bool.eqb _ _) eqn:E.
  - apply Bool.eqb_prop in E. rewrite E, IH, last_cons.
    destruct (last rs); reflexivity.
  - rewrite facebook_after_Switched. cbn [Nat.add].
    destruct (facebook.changes (b :: rs)) eqn:Hc; [|reflexivity].
    rewrite <- (facebook_no_change rs b Hc), last_cons.
    destruct (last rs); reflexivity.
Qed.

(** X15.  [src/facebook.js], [init] and [update_status]: from the
    evaluation of the module on, as long as the reports of the SDK have
    gone from connected to not connected, or back, at most once, the
    queue of the last report is triggered and the other one is
    waiting. *)
Theorem facebook_switch_follows_the_first_change rs r :
  (facebook.changes rs <= 1)%nat ->
  last rs = Some r ->
  exists fb w t,
    facebook.session enough rs empty_world = Some (fb, w, t)
    /\ facebook.status fb = r
    /\ triggered_of w (facebook.connected fb) = Some (facebook.is_connected r)
    /\ triggered_of w (facebook.unconnected fb)
       = Some (negb (facebook.is_connected r)).
Proof.
  intros Hc Hl. eexists _, _, _. split; [apply facebook_session_run|].
  rewrite Hl. split; [reflexivity|]. cbn [facebook.connected facebook.unconnected].
  destruct rs as [|a rs]; [discriminate|].
  rewrite facebook_after_cons. cbn [facebook.next].
  rewrite facebook_after_Single.
  assert (El : default a (last rs) = r).
  { rewrite last_cons in Hl. destruct (last rs); simpl; congruence. }
  destruct (facebook.changes (a :: rs)) as [|[|k]] eqn:E; [| |lia].
  - rewrite <- El, (facebook_no_change rs a E). apply facebook_flags.
  - rewrite El. apply (facebook_flags (facebook.Switched _)).
Qed.

Lemma facebook_switch_follows_the_first_change_witness :
  exists fb w t,
    facebook.session enough ["unknown"; "connected"; "connected"]%string empty_world
    = Some (fb, w, t)
    /\ facebook.status fb = "connected"%string
    /\ triggered_of w (facebook.connected fb) = Some true
    /\ triggered_of w (facebook.unconnected fb) = Some false.
Proof.
  apply (facebook_switch_follows_the_first_change
           ["unknown"; "connected"; "connected"]%string "connected"%string).
  - vm_compute. lia.
  - reflexivity.
Defined.

(** X16.  [src/facebook.js], [init] and [update_status]: the callbacks
    that stop the other queue are used up by the first two changes.
    Once the reports have changed twice, both queues are triggered at
    the same time, whatever is reported from then on. *)
Theorem facebook_switch_sticks_after_the_second_change rs :
  (2 <= facebook.changes rs)%nat ->
  exists fb w t,
    facebook.session enough rs empty_world = Some (fb, w, t)
    /\ triggered_of w (facebook.connected fb) = Some true
    /\ triggered_of w (facebook.unconnected fb) = Some true.
Proof.
  intros Hc. eexists _, _, _. split; [apply facebook_session_run|].
  cbn [facebook.connected facebook.unconnected].
  destruct rs as [|a rs]; [simpl in Hc; lia|].
  rewrite facebook_after_cons. cbn [facebook.next].
  rewrite facebook_after_Single.
  destruct (facebook.changes (a :: rs)) as [|[|k]]; [lia|lia|].
  apply (facebook_flags facebook.Stuck).
Qed.

Lemma facebook_switch_sticks_after_the_second_change_witness :
  exists fb w t,
    facebook.session enough ["connected"; "unknown"; "connected"; "unknown"]%string
      empty_world = Some (fb, w, t)
    /\ triggered_of w (facebook.connected fb) = Some true
    /\ triggered_of w (facebook.unconnected fb) = Some true.
Proof.
  apply (facebook_switch_sticks_after_the_second_change
           ["connected"; "unknown"; "connected"; "unknown"]%string).
  vm_compute. lia.
Defined.

(** ** The permissions of [src/user.js] *)

Lemma indexOf_lower l x : -1 <= indexOf l x.
Proof.
  induction l as [|y l IH]; simpl; [lia|].
  destruct (decide (y = x)); [lia|].
  destruct (Z.ltb_spec (indexOf l x) 0); lia.
Qed.

Lemma user_contains_spec array item :
  user.contains array item = true <-> item ∈ array.
Proof.
  unfold user.contains. rewrite Z.leb_le.
  induction array as [|y l IH]; simpl.
  - split; [lia|]. intros H. inversion H.
  - destruct (decide (y = item)) as [->|Hne].
    + split; [intros _; left|lia].
    + pose proof (indexOf_lower l item).
      destruct (Z.ltb_spec (indexOf l item) 0).
      * split; [lia|]. intros Hin. apply elem_of_cons in Hin.
        destruct Hin as [?|Hin]; [congruence|]. apply IH in Hin. lia.
      * split; [intros _; right; apply IH; lia|lia].
Qed.

Lemma user_contains_false array item :
  user.contains array item = false <-> item ∉ array.
Proof.
  rewrite <- user_contains_spec. destruct (user.contains array item); split; congruence.
Qed.

Lemma user_elem_of_difference x array others :
  x ∈ user.difference array others <-> x ∈ array /\ x ∉ others.
Proof.
  unfold user.difference. rewrite list_elem_of_In, filter_In, <- list_elem_of_In.
  rewrite negb_true_iff, user_contains_false. reflexivity.
Qed.

Lemma user_difference_nil array others :
  user.difference array others = [] <-> forall x, x ∈ array -> x ∈ others.
Proof.
  split.
  - intros E x Hx. destruct (decide (x ∈ others)) as [|Hn]; [assumption|].
    assert (H : x ∈ user.difference array others)
      by (apply user_elem_of_difference; split; assumption).
    rewrite E in H. inversion H.
  - intros H. destruct (user.difference array others) as [|x l] eqn:E; [reflexivity|].
    assert (Hx : x ∈ user.difference array others) by (rewrite E; left).
    apply user_elem_of_difference in Hx. destruct Hx as [Hx Hn].
    destruct (Hn (H x Hx)).
Qed.

Lemma user_elem_of_uniq_onto array : forall result x,
  x ∈ user.uniq_onto result array <-> x ∈ result \/ x ∈ array.
Proof.
  induction array as [|v rest IH]; intros result x; simpl.
  - split; [intros H; left; exact H|]. intros [H|H]; [exact H|inversion H].
  - rewrite IH. destruct (user.contains result v) eqn:E.
    + apply user_contains_spec in E. rewrite elem_of_cons.
      split; [intros [?|?]; auto|]. intros [?|[->|?]]; auto.
    + rewrite elem_of_app, list_elem_of_singleton, elem_of_cons. tauto.
Qed.

Lemma user_elem_of_uniq x array : x ∈ user.uniq array <-> x ∈ array.
Proof.
  unfold user.uniq. rewrite user_elem_of_uniq_onto.
  split; [intros [H|H]; [inversion H|exact H]|]. intros H; right; exact H.
Qed.

Lemma user_elem_of_all x u :
  x ∈ user.all u <-> x ∈ user.additional_permissions u \/ x ∈ user.basic_permissions u.
Proof.
  unfold user.all, user.union, user.additional, user.basic.
  rewrite user_elem_of_uniq, elem_of_app. reflexivity.
Qed.

Lemma flatten_items l : flatten (user.items l) = l.
Proof.
  unfold user.items. induction l as [|x l IH]; [reflexivity|].
  simpl in *. rewrite IH. reflexivity.
Qed.

Lemma flatten_argument x : flatten (Group [x]) = flatten x.
Proof. simpl. apply app_nil_r. Qed.

Lemma user_includes_spec u r :
  user.includes u r = true <-> forall x, x ∈ flatten r -> x ∈ user.current u.
Proof.
  unfold user.includes, user.missing. rewrite Nat.eqb_eq, length_zero_iff_nil.
  rewrite user_difference_nil, flatten_argument. reflexivity.
Qed.

(** X17.  [src/user.js], [not_listed] and [add]: once the permissions of
    a request that were not listed have been added, as
    [request_permissions] does, none of the request is unlisted, for a
    single permission, an array of them or no permission at all; the
    basic permissions are as before. *)
Theorem user_nothing_unlisted_after_add u r :
  user.not_listed (user.add u (user.items (user.not_listed u r))) r = []
  /\ user.basic (user.add u (user.items (user.not_listed u r))) = user.basic u.
Proof.
  split; [|reflexivity].
  unfold user.not_listed at 1. apply user_difference_nil. intros x Hx.
  apply user_elem_of_all.
  destruct (decide (x ∈ user.all u)) as [Hin|Hn].
  - apply user_elem_of_all in Hin. destruct Hin as [Hin|Hin]; [left|right; exact Hin].
    unfold user.add. cbn [user.additional_permissions user.set_additional_permissions].
    apply elem_of_app. left. exact Hin.
  - left. unfold user.add.
    cbn [user.additional_permissions user.set_additional_permissions].
    apply elem_of_app. right.
    rewrite flatten_argument, flatten_items.
    apply user_elem_of_difference. split; assumption.
Qed.

(** ** The queues of [src/user.js] *)

Lemma trigger_triggered rec q w s :
  heap w !! q = Some s ->
  triggered s = true ->
  trigger rec q w = Some (VBool false, w, []).
Proof.
  intros Hq Ht. unfold trigger.
  rewrite (and_then_pure _ _ _ _ _ (read_some _ _ _ _ Hq)), Ht. reflexivity.
Qed.

Lemma stop_waiting rec q w s :
  heap w !! q = Some s ->
  triggered s = false ->
  stop rec q w = Some (VBool false, w, []).
Proof.
  intros Hq Ht. unfold stop.
  rewrite (and_then_pure _ _ _ _ _ (read_some _ _ _ _ Hq)), Ht. reflexivity.
Qed.

Lemma empty_stack q w s :
  heap w !! q = Some s ->
  empty q w = Some (VUndefined, with_queue q (set_stack [] s) w, []).
Proof.
  intros Hq. unfold empty.
  rewrite (and_then_pure _ _ _ _ _ (read_some _ _ _ _ Hq)).
  rewrite (and_then_pure _ _ _ _ _ (modify_some _ _ _ _ Hq)).
  rewrite splice_all. reflexivity.
Qed.

Lemma stop_triggered rec q w s :
  heap w !! q = Some s ->
  triggered s = true ->
  stop_event_listener s = None ->
  stop rec q w
  = Some (VUndefined, with_queue q (set_watching false (set_triggered false s)) w, []).
Proof.
  intros Hq Ht Hl.
  assert (Hlt : (q < length (heap w))%nat) by (eapply lookup_lt_Some, Hq).
  unfold stop.
  rewrite (and_then_pure _ _ _ _ _ (read_some _ _ _ _ Hq)), Ht. cbn [negb].
  rewrite (and_then_pure _ _ _ _ _ (modify_some _ _ _ _ Hq)).
  fold (with_queue q (set_triggered false s) w).
  pose proof (lookup_with_queue q (set_triggered false s) w Hlt) as Hq1.
  rewrite (and_then_pure _ _ _ _ _ (modify_some _ _ _ _ Hq1)).
  fold (with_queue q (set_watching false (set_triggered false s))
          (with_queue q (set_triggered false s) w)).
  rewrite with_queue_twice.
  pose proof (lookup_with_queue q (set_watching false (set_triggered false s)) w Hlt)
    as Hq2.
  rewrite (and_then_pure _ _ _ _ _ (read_some _ _ _ _ Hq2)).
  simpl. rewrite Hl. reflexivity.
Qed.

Lemma lookup_with_queue_ne q q' s w :
  q <> q' -> heap (with_queue q s w) !! q' = heap w !! q'.
Proof. intros H. simpl. apply list_lookup_insert_ne, H. Qed.

Lemma funs_with_queue q s w : funs (with_queue q s w) = funs w.
Proof. reflexivity. Qed.

Section Cycling.

Local Opaque and_then read modify alloc_queue defer get_fun emit W NF run.

(** A waiting queue with [refire] and [requeue], without listeners,
    holding well-behaved entries, triggered for the first time or
    again. *)
Lemma trigger_refire_requeue_cycles n w q s :
  heap w !! q = Some s ->
  cycling_queue (funs w) s ->
  trigger (run (S (S (length (stack s) + n)))) q w
  = Some (VUndefined, with_queue q (set_watching true s) w,
          invoked_by (bind s) (stack s)).
Proof.
  intros Hq (Ht & Hrf & Hrq & Hl & Hl' & Hall).
  assert (Hlt : (q < length (heap w))%nat) by (eapply lookup_lt_Some, Hq).
  rewrite (W_id w q s Hq) at 1 2.
  rewrite with_queue_W by exact Hlt.
  destruct s as [b rf rq t st wt tel sel]. simpl in *. subst.
  repeat step0.
  erewrite and_then_step
    by (apply (drain_simple_W n); [assumption|reflexivity|assumption]).
  repeat step0.
  rewrite app_nil_r. reflexivity.
Qed.

End Cycling.

(** The second step of [update]: [permissions_granted] follows the
    test. *)
Lemma user_update_granted_stage n (inc : bool) pg w sg :
  heap w !! pg = Some sg ->
  plain_queue (funs w) sg ->
  exists sg' t,
    (if inc
     then trigger (run (S (S (length (stack sg) + n)))) pg >>; ret tt
     else empty pg >>; stop (run (S (S (length (stack sg) + n)))) pg >>; ret tt) w
    = Some (tt, with_queue pg sg' w, t)
    /\ triggered sg' = inc
    /\ (inc = false -> stack sg' = [])
    /\ t = (if inc && negb (triggered sg) then invoked_by (bind sg) (stack sg) else []).
Proof.
  intros Hq (Hrf & Hrq & Hl & Hl' & Hall).
  assert (Hlt : (pg < length (heap w))%nat) by (eapply lookup_lt_Some, Hq).
  destruct inc, (triggered sg) eqn:Ht.
  - exists sg, [].
    rewrite (and_then_step _ _ _ _ _ _ (trigger_triggered _ _ _ _ Hq Ht)).
    rewrite with_queue_id by exact Hq.
    repeat split; try reflexivity; try assumption; try discriminate.
  - eexists _, _.
    pose proof (trigger_plain_drains n w pg sg Hq Ht Hrf Hrq Hl Hall) as E.
    change (exec ?f (Do (OpTrigger pg)) w) with (trigger (run f) pg w) in E.
    rewrite (and_then_step _ _ _ _ _ _ E).
    split; [reflexivity|]. rewrite app_nil_r.
    repeat split; try reflexivity; try discriminate.
  - eexists _, [].
    rewrite (and_then_step _ _ _ _ _ _ (empty_stack _ _ _ Hq)).
    pose proof (lookup_with_queue pg (set_stack [] sg) w Hlt) as Hq1.
    assert (Ht1 : triggered (set_stack [] sg) = true) by exact Ht.
    assert (Hl1 : stop_event_listener (set_stack [] sg) = None) by exact Hl'.
    cbn [prefix app].
    rewrite (and_then_step _ _ _ _ _ _ (stop_triggered _ _ _ _ Hq1 Ht1 Hl1)).
    rewrite with_queue_twice.
    repeat split; reflexivity.
  - exists (set_stack [] sg), [].
    rewrite (and_then_step _ _ _ _ _ _ (empty_stack _ _ _ Hq)).
    pose proof (lookup_with_queue pg (set_stack [] sg) w Hlt) as Hq1.
    assert (Ht1 : triggered (set_stack [] sg) = false) by exact Ht.
    cbn [prefix app].
    rewrite (and_then_step _ _ _ _ _ _ (stop_waiting _ _ _ _ Hq1 Ht1)).
    repeat split; try reflexivity. exact Ht.
Qed.

(** The first step of [update]: [permission_change] is given the
    object of the changes and triggered. *)
Lemma user_update_change_stage {A} n pc w sc v (a : A) :
  heap w !! pc = Some sc ->
  cycling_queue (funs w) sc ->
  (modify pc (set_bind v) >>; trigger (run (S (S (length (stack sc) + n)))) pc >>; ret a) w
  = Some (a, with_queue pc (set_watching true (set_bind v sc)) w,
          invoked_by v (stack sc)).
Proof.
  intros Hq Hc.
  assert (Hlt : (pc < length (heap w))%nat) by (eapply lookup_lt_Some, Hq).
  rewrite (and_then_step _ _ _ _ _ _ (modify_some _ _ _ _ Hq)).
  fold (with_queue pc (set_bind v sc) w).
  pose proof (lookup_with_queue pc (set_bind v sc) w Hlt) as Hq1.
  assert (Hc1 : cycling_queue (funs (with_queue pc (set_bind v sc) w)) (set_bind v sc))
    by exact Hc.
  pose proof (trigger_refire_requeue_cycles n _ _ _ Hq1 Hc1) as E.
  cbn [prefix app].
  change (stack (set_bind v sc)) with (stack sc) in E.
  rewrite (and_then_step _ _ _ _ _ _ E).
  rewrite with_queue_twice. cbn. rewrite app_nil_r. reflexivity.
Qed.

Lemma apply_native rec f this w :
  funs w !! f = Some Native ->
  apply rec (VFunction f) this w = Some (VUndefined, w, [Invoked f this]).
Proof.
  intros H. unfold apply, get_fun, and_then, get_world, lift_option, emit, ret.
  rewrite H. reflexivity.
Qed.

(** The last step of [update]. *)
Lemma user_update_callback_stage rec callback w :
  (forall f, callback = VFunction f -> funs w !! f = Some Native) ->
  (if is_function callback then apply rec callback VUndefined >>; ret tt else ret tt) w
  = Some (tt, w, match callback with
                 | VFunction f => [Invoked f VUndefined]
                 | _ => []
                 end).
Proof.
  intros H. destruct callback; try reflexivity.
  cbn [is_function].
  rewrite (and_then_step _ _ _ _ _ _ (apply_native rec _ _ _ (H _ eq_refl))).
  reflexivity.
Qed.

Lemma user_no_change_is_irrelevant ng nr l :
  negb (length ng =? 0)%nat || negb (length nr =? 0)%nat = false ->
  negb (length (user.intersection (user.union ng nr) l) =? 0)%nat = false.
Proof.
  destruct ng, nr; try discriminate. reflexivity.
Qed.

Lemma user_update_run n u data callback w sg sc :
  heap w !! user.permissions_granted u = Some sg ->
  heap w !! user.permission_change u = Some sc ->
  user.permissions_granted u <> user.permission_change u ->
  plain_queue (funs w) sg ->
  cycling_queue (funs w) sc ->
  (forall f, callback = VFunction f -> funs w !! f = Some Native) ->
  let cur := map user.granted_permission (default [] data) in
  let ng := user.difference cur (user.current u) in
  let nr := user.difference (user.current u) cur in
  let relevant :=
    negb (length (user.intersection (user.union ng nr) (user.all u)) =? 0)%nat in
  let o := length (user.objects u) in
  let u' :=
    if relevant
    then user.set_objects
           (user.objects u
            ++ [user.PermissionChanges (user.intersection ng (user.all u))
                                       (user.intersection nr (user.all u))])
           (user.set_current cur u)
    else user.set_current cur u in
  let inc := user.includes (user.set_current cur u) (user.items (user.all u)) in
  exists sg',
    user.update (run (S (S (length (stack sg) + length (stack sc) + n)))) u data callback w
    = Some (u',
            with_queue (user.permissions_granted u) sg'
              (with_queue (user.permission_change u)
                 (if relevant then set_watching true (set_bind (VObject o) sc) else sc) w),
            (if relevant then invoked_by (VObject o) (stack sc) else [])
            ++ (if inc && negb (triggered sg) then invoked_by (bind sg) (stack sg) else [])
            ++ match callback with
               | VFunction f => [Invoked f VUndefined]
               | _ => []
               end)
    /\ triggered sg' = inc
    /\ (inc = false -> stack sg' = []).
Proof.
  intros Hg Hc Hne Hpg Hpc Hcb cur ng nr relevant o u' inc.
  remember (S (S (length (stack sg) + length (stack sc) + n))) as fuel eqn:Hfuel.
  assert (Ea : fuel = S (S (length (stack sc) + (length (stack sg) + n)))) by lia.
  assert (Eb : fuel = S (S (length (stack sg) + (length (stack sc) + n)))) by lia.
  assert (Hlt : (user.permission_change u < length (heap w))%nat)
    by (eapply lookup_lt_Some, Hc).
  set (sc' := if relevant then set_watching true (set_bind (VObject o) sc) else sc).
  set (w1 := with_queue (user.permission_change u) sc' w).
  assert (Hg1 : heap w1 !! user.permissions_granted u = Some sg).
  { unfold w1. rewrite lookup_with_queue_ne by congruence. exact Hg. }
  assert (Hpg1 : plain_queue (funs w1) sg) by exact Hpg.
  destruct (user_update_granted_stage (length (stack sc) + n) inc _ _ _ Hg1 Hpg1)
    as (sg' & t & E2 & Ht & Hs & Et).
  rewrite <- Eb in E2.
  exists sg'. split; [|split; assumption].
  assert (E1 : (if negb (length ng =? 0)%nat || negb (length nr =? 0)%nat
                then
                  if relevant
                  then
                    modify (user.permission_change u) (set_bind (VObject o)) >>;
                    trigger (run fuel) (user.permission_change u) >>;
                    ret (user.set_objects
                           (user.objects u
                            ++ [user.PermissionChanges
                                  (user.intersection ng (user.all u))
                                  (user.intersection nr (user.all u))])
                           (user.set_current cur u))
                  else ret (user.set_current cur u)
                else ret (user.set_current cur u)) w
               = Some (u', w1, if relevant then invoked_by (VObject o) (stack sc) else [])).
  { destruct (negb (length ng =? 0)%nat || negb (length nr =? 0)%nat) eqn:Hany.
    - unfold w1, sc', u'. destruct relevant.
      + rewrite Ea. apply user_update_change_stage; assumption.
      + rewrite with_queue_id by exact Hc. reflexivity.
    - unfold w1, sc', u', relevant.
      rewrite (user_no_change_is_irrelevant _ _ _ Hany).
      rewrite with_queue_id by exact Hc. reflexivity. }
  assert (E3 := user_update_callback_stage (run fuel) callback
                  (with_queue (user.permissions_granted u) sg' w1) Hcb).
  assert (Ei : user.includes u' (user.items (user.all u')) = inc)
    by (unfold u'; destruct relevant; reflexivity).
  assert (Eg : user.permissions_granted u' = user.permissions_granted u)
    by (unfold u'; destruct relevant; reflexivity).
  unfold user.update.
  change (match data with Some d => d | None => [] end) with (default [] data).
  fold cur. cbv zeta.
  change (user.current (user.set_current cur u)) with cur.
  fold ng nr.
  change (user.all (user.set_current cur u)) with (user.all u).
  fold relevant.
  change (user.objects (user.set_current cur u)) with (user.objects u).
  fold o.
  change (user.permission_change (user.set_objects ?l (user.set_current cur u)))
    with (user.permission_change u).
  rewrite (and_then_step _ _ _ _ _ _ E1).
  rewrite Ei, Eg.
  rewrite (and_then_step _ _ _ _ _ _ E2).
  rewrite (and_then_step _ _ _ _ _ _ E3).
  cbn [prefix ret]. rewrite Et, app_nil_r. reflexivity.
Qed.

(** X18.  [src/user.js], [update]: after the answer to [me/permissions]
    has been taken in, [permissions_granted] is triggered exactly when
    every listed permission is among the granted ones; otherwise it is
    waiting and its stack has been emptied.  The queues hold
    application callbacks and have no listeners. *)
Theorem user_update_settles_permissions_granted n u data callback w sg sc :
  heap w !! user.permissions_granted u = Some sg ->
  heap w !! user.permission_change u = Some sc ->
  user.permissions_granted u <> user.permission_change u ->
  plain_queue (funs w) sg ->
  cycling_queue (funs w) sc ->
  (forall f, callback = VFunction f -> funs w !! f = Some Native) ->
  exists u' w' t,
    user.update (run (S (S (length (stack sg) + length (stack sc) + n)))) u data callback w
    = Some (u', w', t)
    /\ user.current u' = map user.granted_permission (default [] data)
    /\ triggered_of w' (user.permissions_granted u)
       = Some (user.includes u' (user.items (user.all u')))
    /\ (user.includes u' (user.items (user.all u')) = false ->
        stack_of w' (user.permissions_granted u) = Some []).
Proof.
  intros Hg Hc Hne Hpg Hpc Hcb.
  destruct (user_update_run n u data callback w sg sc Hg Hc Hne Hpg Hpc Hcb)
    as (sg' & E & Ht & Hs).
  assert (Hlt : (user.permissions_granted u < length (heap w))%nat)
    by (eapply lookup_lt_Some, Hg).
  eexists _, _, _. split; [exact E|].
  assert (Hq : forall s w0, heap (with_queue (user.permissions_granted u) sg'
                                    (with_queue (user.permission_change u) s w0))
                            !! user.permissions_granted u
                            = if decide (user.permissions_granted u < length (heap w0))%nat
                              then Some sg' else None).
  { intros s w0. destruct (decide _) as [H|H].
    - apply lookup_with_queue. simpl. rewrite length_insert. exact H.
    - apply lookup_ge_None. simpl. rewrite !length_insert. lia. }
  unfold triggered_of, stack_of. rewrite Hq.
  destruct (decide _) as [_|H]; [|destruct (H Hlt)].
  destruct (negb _);
    (split; [reflexivity|]; split; [simpl; rewrite Ht; reflexivity|]);
    intros Hi; simpl; rewrite (Hs Hi); reflexivity.
Qed.

Lemma user_update_settles_permissions_granted_witness :
  exists u' w' t,
    user.update (run 4) (user.mk 0 1 2 3 [] [VStr "email"] [] [] [])
      (Some [user.mk_grant "email" "granted"]) VUndefined
      (mk_world
         [mk_stack_callback VUndefined false false false [] false None None;
          mk_stack_callback VUndefined false false false [] false None None;
          mk_stack_callback VUndefined false false false [VFunction 0] false None None;
          mk_stack_callback VUndefined true true false [VFunction 0] false None None]
         [Native] [] [])
    = Some (u', w', t)
    /\ user.current u' = [VStr "email"]
    /\ triggered_of w' 2 = Some (user.includes u' (user.items (user.all u')))
    /\ (user.includes u' (user.items (user.all u')) = false -> stack_of w' 2 = Some []).
Proof.
  apply (user_update_settles_permissions_granted 0
           (user.mk 0 1 2 3 [] [VStr "email"] [] [] [])
           (Some [user.mk_grant "email" "granted"]) VUndefined
           (mk_world
              [mk_stack_callback VUndefined false false false [] false None None;
               mk_stack_callback VUndefined false false false [] false None None;
               mk_stack_callback VUndefined false false false [VFunction 0] false None None;
               mk_stack_callback VUndefined true true false [VFunction 0] false None None]
              [Native] [] [])
           (mk_stack_callback VUndefined false false false [VFunction 0] false None None)
           (mk_stack_callback VUndefined true true false [VFunction 0] false None None)).
  - reflexivity.
  - reflexivity.
  - simpl. lia.
  - repeat split. repeat constructor. intros f [= <-]. reflexivity.
  - repeat split. repeat constructor. intros f [= <-]. reflexivity.
  - intros f [=].
Defined.

(** X19.  [src/user.js], [update]: when a permission the application
    lists has been granted or revoked since the last answer, the
    callbacks of [permission_change] are invoked first, bound to a new
    object holding the listed permissions that were granted and
    revoked, and they stay on the stack of the waiting queue for the
    next change; when none has, the queue is left as it is and no
    object is created. *)
Theorem user_update_reports_the_change n u data callback w sg sc :
  heap w !! user.permissions_granted u = Some sg ->
  heap w !! user.permission_change u = Some sc ->
  user.permissions_granted u <> user.permission_change u ->
  plain_queue (funs w) sg ->
  cycling_queue (funs w) sc ->
  (forall f, callback = VFunction f -> funs w !! f = Some Native) ->
  let cur := map user.granted_permission (default [] data) in
  let newly_granted := user.difference cur (user.current u) in
  let newly_revoked := user.difference (user.current u) cur in
  let o := length (user.objects u) in
  exists u' w' t,
    user.update (run (S (S (length (stack sg) + length (stack sc) + n)))) u data callback w
    = Some (u', w', t)
    /\ (user.intersection (user.union newly_granted newly_revoked) (user.all u) <> [] ->
        (exists t', t = invoked_by (VObject o) (stack sc) ++ t')
        /\ user.objects u' !! o
           = Some (user.PermissionChanges
                     (user.intersection newly_granted (user.all u))
                     (user.intersection newly_revoked (user.all u)))
        /\ bind_of w' (user.permission_change u) = Some (VObject o)
        /\ stack_of w' (user.permission_change u) = Some (stack sc)
        /\ triggered_of w' (user.permission_change u) = Some false)
    /\ (user.intersection (user.union newly_granted newly_revoked) (user.all u) = [] ->
        heap w' !! user.permission_change u = Some sc
        /\ user.objects u' = user.objects u).
Proof.
  intros Hg Hc Hne Hpg Hpc Hcb cur newly_granted newly_revoked o.
  destruct (user_update_run n u data callback w sg sc Hg Hc Hne Hpg Hpc Hcb)
    as (sg' & E & _ & _).
  assert (Hlt : (user.permission_change u < length (heap w))%nat)
    by (eapply lookup_lt_Some, Hc).
  eexists _, _, _. split; [exact E|].
  fold cur newly_granted newly_revoked o.
  assert (Hq : forall s, heap (with_queue (user.permissions_granted u) sg'
                                 (with_queue (user.permission_change u) s w))
                         !! user.permission_change u = Some s).
  { intros s. rewrite lookup_with_queue_ne by exact Hne.
    apply lookup_with_queue, Hlt. }
  unfold bind_of, stack_of, triggered_of. rewrite !Hq.
  destruct Hpc as (Ht & _).
  destruct (user.intersection (user.union newly_granted newly_revoked) (user.all u))
    as [|x l] eqn:Ei; cbn [length Nat.eqb negb].
  - split; [intros H; destruct (H eq_refl)|]. intros _. split; reflexivity.
  - split; [|discriminate]. intros _.
    split; [eexists; reflexivity|].
    split; [apply list_lookup_middle; reflexivity|].
    repeat split. simpl. rewrite Ht. reflexivity.
Qed.

Lemma user_update_reports_the_change_witness :
  exists u' w' t,
    user.update (run 4) (user.mk 0 1 2 3 [] [VStr "email"] [] [] [])
      (Some [user.mk_grant "email" "granted"]) VUndefined
      (mk_world
         [mk_stack_callback VUndefined false false false [] false None None;
          mk_stack_callback VUndefined false false false [] false None None;
          mk_stack_callback VUndefined false false false [VFunction 0] false None None;
          mk_stack_callback VUndefined true true false [VFunction 0] false None None]
         [Native] [] [])
    = Some (u', w', t)
    /\ (user.intersection (user.union [VStr "email"] []) [VStr "email"] <> [] ->
        (exists t', t = [Invoked 0 (VObject 0)] ++ t')
        /\ user.objects u' !! 0%nat = Some (user.PermissionChanges [VStr "email"] [])
        /\ bind_of w' 3 = Some (VObject 0)
        /\ stack_of w' 3 = Some [VFunction 0]
        /\ triggered_of w' 3 = Some false)
    /\ (user.intersection (user.union [VStr "email"] []) [VStr "email"] = [] ->
        heap w' !! 3%nat
        = Some (mk_stack_callback VUndefined true true false [VFunction 0] false None None)
        /\ user.objects u' = []).
Proof.
  apply (user_update_reports_the_change 0
           (user.mk 0 1 2 3 [] [VStr "email"] [] [] [])
           (Some [user.mk_grant "email" "granted"]) VUndefined
           (mk_world
              [mk_stack_callback VUndefined false false false [] false None None;
               mk_stack_callback VUndefined false false false [] false None None;
               mk_stack_callback VUndefined false false false [VFunction 0] false None None;
               mk_stack_callback VUndefined true true false [VFunction 0] false None None]
              [Native] [] [])
           (mk_stack_callback VUndefined false false false [VFunction 0] false None None)
           (mk_stack_callback VUndefined true true false [VFunction 0] false None None)).
  - reflexivity.
  - reflexivity.
  - simpl. lia.
  - repeat split. repeat constructor. intros f [= <-]. reflexivity.
  - repeat split. repeat constructor. intros f [= <-]. reflexivity.
  - intros f [=].
Defined.

Lemma user_all_preventDefault e u : user.all (user.preventDefault e u) = user.all u.
Proof. destruct e; reflexivity. Qed.

Lemma user_current_preventDefault e u :
  user.current (user.preventDefault e u) = user.current u.
Proof. destruct e; reflexivity. Qed.

Lemma user_granted_is_defined data :
  Forall (fun n => user.status n = "granted"%string) data ->
  VUndefined ∉ map user.granted_permission data.
Proof.
  intros H Hin. apply list_elem_of_fmap in Hin. destruct Hin as (n & Hn & Hin).
  rewrite Forall_forall in H. specialize (H n Hin).
  unfold user.granted_permission in Hn. rewrite H in Hn. discriminate.
Qed.

(** X20.  [src/user.js], [request_permissions] called with an event and
    a callback but no permission: [undefined] is taken for a permission
    nobody has listed and is pushed onto [additional_permissions]; the
    dialog is asked for a scope that holds it.  From then on no answer
    in which every permission is granted meets the test of [update]
    for [permissions_granted]. *)
Theorem user_request_without_list_lists_undefined rec u e f third w :
  user.evented u e = true ->
  VUndefined ∉ user.all u ->
  VUndefined ∉ user.current u ->
  exists u',
    user.request_permissions rec u e (Item (VFunction f)) third w = Some (u', w, [])
    /\ user.additional_permissions u' = user.additional_permissions u ++ [VUndefined]
    /\ user.requests u' = user.requests u ++ [user.FBLogin (user.items (user.all u')) true]
    /\ forall data,
         Forall (fun n => user.status n = "granted"%string) data ->
         user.includes (user.set_current (map user.granted_permission data) u')
                       (user.items (user.all u')) = false.
Proof.
  intros He Hall Hcur.
  set (u0 := user.preventDefault e u).
  assert (En : user.not_listed u0 (Item VUndefined) = [VUndefined]).
  { unfold user.not_listed, user.difference. unfold u0.
    rewrite user_all_preventDefault. cbn [flatten app List.filter].
    apply user_contains_false in Hall. rewrite Hall. reflexivity. }
  set (u1 := user.add u0 (user.items [VUndefined])).
  assert (Hin : VUndefined ∈ user.all u1).
  { apply user_elem_of_all. left. unfold u1, user.add.
    cbn [user.additional_permissions user.set_additional_permissions].
    apply elem_of_app. right. left. }
  assert (Ei : forall l, VUndefined ∉ l ->
               user.includes (user.set_current l u1) (user.items (user.all u1)) = false).
  { intros l Hl. destruct (user.includes _ _) eqn:E; [|reflexivity].
    rewrite user_includes_spec, flatten_items in E. destruct (Hl (E _ Hin)). }
  exists (user.ask (user.FBLogin (user.items (user.all u1)) true) u1).
  split; [|split; [|split]].
  - unfold user.request_permissions. rewrite He. cbn [negb]. fold u0.
    cbv zeta. rewrite En. fold u1. cbn [user.truthy_argument truthy].
    assert (E : user.includes u1 (user.items (user.all u1)) = false).
    { destruct (user.includes _ _) eqn:E; [|reflexivity].
      rewrite user_includes_spec, flatten_items in E.
      specialize (E _ Hin). unfold u1, u0 in E.
      change (user.current (user.add ?a ?b)) with (user.current a) in E.
      rewrite user_current_preventDefault in E. destruct (Hcur E). }
    rewrite E. reflexivity.
  - unfold u1, u0. destruct e; reflexivity.
  - unfold u1, u0. destruct e; reflexivity.
  - intros data Hd. apply (Ei _ (user_granted_is_defined _ Hd)).
Qed.

Lemma user_request_without_list_lists_undefined_witness :
  exists u',
    user.request_permissions (run 0)
      (user.mk 0 1 2 3 [VStr "email"] [VStr "email"] [] [user.JQueryEvent false] [])
      (VObject 0) (Item (VFunction 0)) VUndefined empty_world
    = Some (u', empty_world, [])
    /\ user.additional_permissions u' = [] ++ [VUndefined]
    /\ user.requests u' = [] ++ [user.FBLogin (user.items (user.all u')) true]
    /\ forall data,
         Forall (fun n => user.status n = "granted"%string) data ->
         user.includes (user.set_current (map user.granted_permission data) u')
                       (user.items (user.all u')) = false.
Proof.
  apply (user_request_without_list_lists_undefined (run 0)
           (user.mk 0 1 2 3 [VStr "email"] [VStr "email"] [] [user.JQueryEvent false] [])
           (VObject 0) 0%nat VUndefined empty_world).
  - reflexivity.
  - apply user_contains_false. reflexivity.
  - apply user_contains_false. reflexivity.
Defined.

(** X21.  [src/user.js], [login]: called with an event it prevents the
    default action and then raises a [TypeError], for [callbacks] has
    no property [login_begin] (the queue is named [begin_login]).
    Nothing is triggered and the login dialog is not asked for. *)
Theorem user_login_raises rec fb u e w :
  user.evented u e = true ->
  user.login rec fb u e w = Some ((user.TypeError, user.preventDefault e u), w, []).
Proof.
  intros He. unfold user.login. rewrite He. reflexivity.
Qed.

Lemma user_login_raises_witness :
  user.login (run 0) (facebook.mk 0 1 2 "connected")
    (user.mk 3 4 5 6 [] [] [] [user.JQueryEvent false] []) (VObject 0) empty_world
  = Some ((user.TypeError, user.mk 3 4 5 6 [] [] [] [user.JQueryEvent true] []),
          empty_world, []).
Proof.
  apply (user_login_raises (run 0) (facebook.mk 0 1 2 "connected")
           (user.mk 3 4 5 6 [] [] [] [user.JQueryEvent false] []) (VObject 0)
           empty_world).
  reflexivity.
Defined.

(** X22.  [src/user.js], [request_permissions] for a permission or an
    array of permissions, with a callback: the permissions of the
    request that were not listed are listed; when all of the request
    is granted the callback is invoked at once, bound to the event, and
    the dialog is not asked for; otherwise the dialog is asked for the
    request, as a rerequest, and the callback is not invoked. *)
Theorem user_request_invokes_or_asks rec u e r f w :
  user.evented u e = true ->
  (forall g, r <> Item (VFunction g)) ->
  user.truthy_argument r = true ->
  funs w !! f = Some Native ->
  let u' := user.add (user.preventDefault e u) (user.items (user.not_listed u r)) in
  user.request_permissions rec u e r (VFunction f) w
  = if user.includes u r
    then Some (u', w, [Invoked f e])
    else Some (user.ask (user.FBLogin r true) u', w, []).
Proof.
  intros He Hr Ht Hf u'.
  unfold user.request_permissions. rewrite He. cbn [negb].
  assert (E : match r with
              | Item (VFunction g) => (Item VUndefined, VFunction g)
              | _ => (r, VFunction f)
              end = (r, VFunction f)).
  { destruct r as [[]|]; try reflexivity. destruct (Hr _ eq_refl). }
  rewrite E. cbv zeta. rewrite Ht.
  assert (En : user.not_listed (user.preventDefault e u) r = user.not_listed u r).
  { unfold user.not_listed. rewrite user_all_preventDefault. reflexivity. }
  rewrite En. fold u'.
  assert (Ei : user.includes u' r = user.includes u r).
  { unfold user.includes, user.missing, u'.
    change (user.current (user.add ?a ?b)) with (user.current a).
    rewrite user_current_preventDefault. reflexivity. }
  rewrite Ei. destruct (user.includes u r); [|reflexivity].
  cbn [negb is_function]. rewrite and_then_assoc.
  rewrite (and_then_step _ _ _ _ _ _ (apply_native rec _ _ _ Hf)).
  reflexivity.
Qed.

Lemma user_request_invokes_or_asks_witness :
  user.request_permissions (run 0)
    (user.mk 0 1 2 3 [VStr "email"] [] [] [user.JQueryEvent false] [])
    (VObject 0) (Item (VStr "email")) (VFunction 0) (mk_world [] [Native] [] [])
  = Some (user.mk 0 1 2 3 [VStr "email"] [] [VStr "email"] [user.JQueryEvent true] [],
          mk_world [] [Native] [] [], [Invoked 0 (VObject 0)]).
Proof.
  apply (user_request_invokes_or_asks (run 0)
           (user.mk 0 1 2 3 [VStr "email"] [] [] [user.JQueryEvent false] [])
           (VObject 0) (Item (VStr "email")) 0%nat (mk_world [] [Native] [] [])).
  - reflexivity.
  - intros g [=].
  - reflexivity.
  - reflexivity.
Defined.
